(** * Fernschreiber: the state store of [TDLibWrapper]

    A shallow embedding of the update handlers and read accessors of
    [src/tdlibwrapper.cpp].  The class keeps a handful of [QVariantMap]
    containers (options, users, chats, unread counters) and two hashes of
    heap-allocated [Group] objects; every handler folds one update of the
    receiver thread into these containers and re-emits a Qt signal.

    - [QVariant] values are a tagged union, [QVariantMap] is a finite map
      with string keys (stdpp's [gmap]);
    - a handler is a computation in a small state-and-trace monad [M]: it
      reads and writes the fields of [this] and appends the signals it
      emits (and the requests it sends to TDLib) to a trace;
    - [Group] objects live in an arena indexed by their address, so that
      the identity of a group object is visible in the model. *)

From stdpp Require Import gmap strings list fin_maps pretty.

Open Scope string_scope.
Open Scope list_scope.
Set Default Proof Using "Type".

(** ** Qt values *)

(** The [QVariant] payloads that reach the wrapper: the invalid (null)
    variant, booleans, integers ([qlonglong], no arithmetic is done on
    them here), strings, lists and string-keyed maps. *)
#[warnings="-register-all"]
Inductive QVariant : Type :=
  | Invalid
  | VBool (b : bool)
  | VInt (n : Z)
  | VString (s : string)
  | VList (l : list QVariant)
  | VMap (m : gmap string QVariant).

Abbreviation QVariantMap := (gmap string QVariant).

(** [QVariant::toString()]: strings as they are, numbers in decimal,
    booleans as [true]/[false]; every other variant gives the empty
    string. *)
Definition toString (v : QVariant) : string :=
  match v with
  | VString s => s
  | VInt n => pretty n
  | VBool b => if b then "true" else "false"
  | Invalid | VList _ | VMap _ => ""
  end.

(** [QVariant::toMap()]: the map itself, or an empty map for a variant of
    any other type. *)
Definition toMap (v : QVariant) : QVariantMap :=
  match v with
  | VMap m => m
  | _ => ∅
  end.

(** [QMap::value(key)]: the stored value, or a default-constructed
    (invalid) variant when the key is missing. *)
Definition value (m : QVariantMap) (key : string) : QVariant :=
  default Invalid (m !! key).

(** [QString::isEmpty()]. *)
Definition isEmpty (s : string) : bool :=
  match s with
  | EmptyString => true
  | String _ _ => false
  end.

(** The file-local constants of [tdlibwrapper.cpp]. *)
Definition STATUS : string := "status".
Definition _TYPE : string := "@type".

(** ** Enumerations and the group record *)

(** The enumerators of [TDLibWrapper::AuthorizationState] that the source
    assigns. *)
Inductive AuthorizationState : Set :=
  | Closed
  | Closing
  | LoggingOut
  | AuthorizationReady
  | WaitCode
  | WaitEncryptionKey
  | WaitOtherDeviceConfirmation
  | WaitPassword
  | WaitPhoneNumber
  | WaitRegistration
  | WaitTdlibParameters.

Inductive ConnectionState : Set :=
  | Connecting
  | ConnectingToProxy
  | ConnectionReady
  | Updating
  | WaitingForNetwork.

Inductive ChatMemberStatus : Set :=
  | ChatMemberStatusUnknown
  | ChatMemberStatusCreator
  | ChatMemberStatusAdministrator
  | ChatMemberStatusMember
  | ChatMemberStatusRestricted
  | ChatMemberStatusLeft
  | ChatMemberStatusBanned.

(** [TDLibWrapper::Group]: the id it was created with and the metadata of
    the last update. *)
Record Group : Type := mkGroup {
  groupId : Z;
  groupInfo : QVariantMap
}.

(** A [Group*] that is not null is the index of the object in the arena;
    [QHash::value] on a missing key gives the default-constructed pointer,
    [Q_NULLPTR], which is [None] below. *)
Abbreviation GroupPtr := nat.

(** ** The wrapper object *)

Record TDLibWrapper : Type := mkTDLibWrapper {
  version : string;
  authorizationState : AuthorizationState;
  connectionState : ConnectionState;
  options : QVariantMap;
  userInformation : QVariantMap;
  allUsers : QVariantMap;
  chats : QVariantMap;
  unreadMessageInformation : QVariantMap;
  unreadChatInformation : QVariantMap;
  basicGroups : gmap Z GroupPtr;
  superGroups : gmap Z GroupPtr;
  (** the objects made by [new Group(groupId)], by address *)
  groupObjects : list Group
}.

(** The signals of the wrapper that the modelled handlers emit. *)
Inductive Signal : Type :=
  | versionDetected (v : string)
  | authorizationStateChanged (a : AuthorizationState)
  | optionUpdated (optionName : string) (optionValue : QVariant)
  | ownUserIdFound (ownUserId : string)
  | connectionStateChanged (c : ConnectionState)
  | userUpdated (userId : string) (userInfo : QVariantMap)
  | newChatDiscovered (chatId : string) (chatInformation : QVariantMap)
  | unreadMessageCountUpdated (messageCountInformation : QVariantMap)
  | unreadChatCountUpdated (chatCountInformation : QVariantMap)
  | basicGroupUpdated (groupId : Z)
  | superGroupUpdated (groupId : Z).

(** What a handler does to the outside: it emits signals and, through
    [sendRequest], hands request objects to [td_json_client_send]. *)
Inductive Effect : Type :=
  | Emitted (s : Signal)
  | Sent (requestObject : QVariantMap).

(** ** The handler monad: state of [this] and a trace of effects *)

Definition M (A : Type) : Type :=
  TDLibWrapper → A * TDLibWrapper * list Effect.

Definition ret {A : Type} (a : A) : M A :=
  λ this, (a, this, []).

Definition bind {A B : Type} (m : M A) (k : A → M B) : M B :=
  λ this,
    let '(a, this1, t1) := m this in
    let '(b, this2, t2) := k a this1 in
    (b, this2, t1 ++ t2).

(** stdpp's monadic notations [x ← c; k] and [c;; k] at [M]. *)
#[global] Instance M_ret : MRet M := @ret.
#[global] Instance M_bind : MBind M := λ A B k m, bind m k.

Definition get_this : M TDLibWrapper :=
  λ this, (this, this, []).

Definition modify (f : TDLibWrapper → TDLibWrapper) : M unit :=
  λ this, (tt, f this, []).

Definition emit (s : Signal) : M unit :=
  λ this, (tt, this, [Emitted s]).

Definition td_json_client_send (requestObject : QVariantMap) : M unit :=
  λ this, (tt, this, [Sent requestObject]).

(** [if (c) { body }] *)
Definition when (c : bool) (body : M unit) : M unit :=
  if c then body else ret tt.

(** The state and the trace that running a handler leaves. *)
Definition exec {A : Type} (m : M A) (this : TDLibWrapper) : TDLibWrapper :=
  (m this).1.2.

Definition effects {A : Type} (m : M A) (this : TDLibWrapper) : list Effect :=
  (m this).2.

Definition result {A : Type} (m : M A) (this : TDLibWrapper) : A :=
  (m this).1.1.

(** Field assignments [this->field = x]. *)
Definition set_version (x : string) (w : TDLibWrapper) : TDLibWrapper :=
  mkTDLibWrapper x (authorizationState w) (connectionState w) (options w)
    (userInformation w) (allUsers w) (chats w) (unreadMessageInformation w)
    (unreadChatInformation w) (basicGroups w) (superGroups w) (groupObjects w).

Definition set_authorizationState (x : AuthorizationState) (w : TDLibWrapper) : TDLibWrapper :=
  mkTDLibWrapper (version w) x (connectionState w) (options w)
    (userInformation w) (allUsers w) (chats w) (unreadMessageInformation w)
    (unreadChatInformation w) (basicGroups w) (superGroups w) (groupObjects w).

Definition set_connectionState (x : ConnectionState) (w : TDLibWrapper) : TDLibWrapper :=
  mkTDLibWrapper (version w) (authorizationState w) x (options w)
    (userInformation w) (allUsers w) (chats w) (unreadMessageInformation w)
    (unreadChatInformation w) (basicGroups w) (superGroups w) (groupObjects w).

Definition set_options (x : QVariantMap) (w : TDLibWrapper) : TDLibWrapper :=
  mkTDLibWrapper (version w) (authorizationState w) (connectionState w) x
    (userInformation w) (allUsers w) (chats w) (unreadMessageInformation w)
    (unreadChatInformation w) (basicGroups w) (superGroups w) (groupObjects w).

Definition set_userInformation (x : QVariantMap) (w : TDLibWrapper) : TDLibWrapper :=
  mkTDLibWrapper (version w) (authorizationState w) (connectionState w) (options w)
    x (allUsers w) (chats w) (unreadMessageInformation w)
    (unreadChatInformation w) (basicGroups w) (superGroups w) (groupObjects w).

Definition set_allUsers (x : QVariantMap) (w : TDLibWrapper) : TDLibWrapper :=
  mkTDLibWrapper (version w) (authorizationState w) (connectionState w) (options w)
    (userInformation w) x (chats w) (unreadMessageInformation w)
    (unreadChatInformation w) (basicGroups w) (superGroups w) (groupObjects w).

Definition set_chats (x : QVariantMap) (w : TDLibWrapper) : TDLibWrapper :=
  mkTDLibWrapper (version w) (authorizationState w) (connectionState w) (options w)
    (userInformation w) (allUsers w) x (unreadMessageInformation w)
    (unreadChatInformation w) (basicGroups w) (superGroups w) (groupObjects w).

Definition set_unreadMessageInformation (x : QVariantMap) (w : TDLibWrapper) : TDLibWrapper :=
  mkTDLibWrapper (version w) (authorizationState w) (connectionState w) (options w)
    (userInformation w) (allUsers w) (chats w) x
    (unreadChatInformation w) (basicGroups w) (superGroups w) (groupObjects w).

Definition set_unreadChatInformation (x : QVariantMap) (w : TDLibWrapper) : TDLibWrapper :=
  mkTDLibWrapper (version w) (authorizationState w) (connectionState w) (options w)
    (userInformation w) (allUsers w) (chats w) (unreadMessageInformation w)
    x (basicGroups w) (superGroups w) (groupObjects w).

Definition set_basicGroups (x : gmap Z GroupPtr) (w : TDLibWrapper) : TDLibWrapper :=
  mkTDLibWrapper (version w) (authorizationState w) (connectionState w) (options w)
    (userInformation w) (allUsers w) (chats w) (unreadMessageInformation w)
    (unreadChatInformation w) x (superGroups w) (groupObjects w).

Definition set_superGroups (x : gmap Z GroupPtr) (w : TDLibWrapper) : TDLibWrapper :=
  mkTDLibWrapper (version w) (authorizationState w) (connectionState w) (options w)
    (userInformation w) (allUsers w) (chats w) (unreadMessageInformation w)
    (unreadChatInformation w) (basicGroups w) x (groupObjects w).

Definition set_groupObjects (x : list Group) (w : TDLibWrapper) : TDLibWrapper :=
  mkTDLibWrapper (version w) (authorizationState w) (connectionState w) (options w)
    (userInformation w) (allUsers w) (chats w) (unreadMessageInformation w)
    (unreadChatInformation w) (basicGroups w) (superGroups w) x.

Definition handleVersionDetected (version_ : string) : M unit :=
  modify (set_version version_);;
  emit (versionDetected version_).

Definition handleOptionUpdated (optionName : string) (optionValue : QVariant) : M unit :=
  this ← get_this;
  modify (set_options (<[optionName := optionValue]> (options this)));;
  emit (optionUpdated optionName optionValue);;
  when (String.eqb optionName "my_id")
    (emit (ownUserIdFound (toString optionValue))).

(** ** Requests sent to TDLib *)

(** What [setInitialParameters] reads from outside the class: the secrets
    of [tdlibsecrets.h] and the values Qt reports for the device. *)
Record Environment : Type := mkEnvironment {
  TDLIB_API_ID : QVariant;
  TDLIB_API_HASH : QVariant;
  appDataLocation : string;
  systemLocaleName : string;
  hardwareName : string;
  prettyProductName : string
}.

Definition sendRequest (requestObject : QVariantMap) : M unit :=
  td_json_client_send requestObject.

Definition setInitialParameters (env : Environment) : M unit :=
  let requestObject : QVariantMap := <[_TYPE := VString "setTdlibParameters"]> ∅ in
  let initialParameters : QVariantMap :=
    <["application_version" := VString "0.2"]>
    (<["system_version" := VString (prettyProductName env)]>
    (<["device_model" := VString (hardwareName env)]>
    (<["system_language_code" := VString (systemLocaleName env)]>
    (<["use_secret_chats" := VBool false]>
    (<["use_message_database" := VBool true]>
    (<["use_chat_info_database" := VBool true]>
    (<["use_file_database" := VBool true]>
    (<["database_directory" := VString (String.append (appDataLocation env) "/tdlib")]>
    (<["api_hash" := TDLIB_API_HASH env]>
    (<["api_id" := TDLIB_API_ID env]> ∅)))))))))) in
  sendRequest (<["parameters" := VMap initialParameters]> requestObject).

Definition setEncryptionKey : M unit :=
  let requestObject : QVariantMap := <[_TYPE := VString "checkDatabaseEncryptionKey"]> ∅ in
  sendRequest (<["encryption_key" := VString ""]> requestObject).

(** ** Update handlers (the slots of [TDLibWrapper]) *)

(** The parameter is called [authorizationState] in the source, where it
    hides the member of the same name ([this->authorizationState]). *)
Definition handleAuthorizationStateChanged (env : Environment) (authorizationState_ : string) : M unit :=
  when (String.eqb authorizationState_ "authorizationStateClosed")
    (modify (set_authorizationState Closed));;
  when (String.eqb authorizationState_ "authorizationStateClosing")
    (modify (set_authorizationState Closing));;
  when (String.eqb authorizationState_ "authorizationStateLoggingOut")
    (modify (set_authorizationState LoggingOut));;
  when (String.eqb authorizationState_ "authorizationStateReady")
    (modify (set_authorizationState AuthorizationReady));;
  when (String.eqb authorizationState_ "authorizationStateWaitCode")
    (modify (set_authorizationState WaitCode));;
  when (String.eqb authorizationState_ "authorizationStateWaitEncryptionKey")
    (setEncryptionKey;;
     modify (set_authorizationState WaitEncryptionKey));;
  when (String.eqb authorizationState_ "authorizationStateWaitOtherDeviceConfirmation")
    (modify (set_authorizationState WaitOtherDeviceConfirmation));;
  when (String.eqb authorizationState_ "authorizationStateWaitPassword")
    (modify (set_authorizationState WaitPassword));;
  when (String.eqb authorizationState_ "authorizationStateWaitPhoneNumber")
    (modify (set_authorizationState WaitPhoneNumber));;
  when (String.eqb authorizationState_ "authorizationStateWaitRegistration")
    (modify (set_authorizationState WaitRegistration));;
  when (String.eqb authorizationState_ "authorizationStateWaitTdlibParameters")
    (setInitialParameters env;;
     modify (set_authorizationState WaitTdlibParameters));;
  this ← get_this;
  emit (authorizationStateChanged (authorizationState this)).

Definition handleConnectionStateChanged (connectionState_ : string) : M unit :=
  when (String.eqb connectionState_ "connectionStateConnecting")
    (modify (set_connectionState Connecting));;
  when (String.eqb connectionState_ "connectionStateConnectingToProxy")
    (modify (set_connectionState ConnectingToProxy));;
  when (String.eqb connectionState_ "connectionStateReady")
    (modify (set_connectionState ConnectionReady));;
  when (String.eqb connectionState_ "connectionStateUpdating")
    (modify (set_connectionState Updating));;
  when (String.eqb connectionState_ "connectionStateWaitingForNetwork")
    (modify (set_connectionState WaitingForNetwork));;
  this ← get_this;
  emit (connectionStateChanged (connectionState this)).

(** The parameter is called [userInformation] in the source, where it
    hides the own-user member [this->userInformation]. *)
Definition handleUserUpdated (userInformation_ : QVariantMap) : M unit :=
  let updatedUserId := toString (value userInformation_ "id") in
  this ← get_this;
  when (String.eqb updatedUserId (toString (value (options this) "my_id")))
    (modify (set_userInformation userInformation_));;
  this ← get_this;
  modify (set_allUsers (<[updatedUserId := VMap userInformation_]> (allUsers this)));;
  emit (userUpdated updatedUserId userInformation_).

Definition handleUserStatusUpdated (userId : string) (userStatusInformation : QVariantMap) : M unit :=
  this ← get_this;
  when (String.eqb userId (toString (value (options this) "my_id")))
    (modify (set_userInformation
               (<["status" := VMap userStatusInformation]> (userInformation this))));;
  this ← get_this;
  let updatedUserInformation : QVariantMap :=
    <["status" := VMap userStatusInformation]> (toMap (value (allUsers this) userId)) in
  modify (set_allUsers (<[userId := VMap updatedUserInformation]> (allUsers this)));;
  emit (userUpdated userId updatedUserInformation).

Definition handleNewChatDiscovered (chatInformation : QVariantMap) : M unit :=
  let chatId := toString (value chatInformation "id") in
  this ← get_this;
  modify (set_chats (<[chatId := VMap chatInformation]> (chats this)));;
  emit (newChatDiscovered chatId chatInformation).

Definition handleUnreadMessageCountUpdated (messageCountInformation : QVariantMap) : M unit :=
  when (String.eqb (toString (value messageCountInformation "chat_list_type")) "chatListMain")
    (modify (set_unreadMessageInformation messageCountInformation);;
     emit (unreadMessageCountUpdated messageCountInformation)).

Definition handleUnreadChatCountUpdated (chatCountInformation : QVariantMap) : M unit :=
  when (String.eqb (toString (value chatCountInformation "chat_list_type")) "chatListMain")
    (modify (set_unreadChatInformation chatCountInformation);;
     emit (unreadChatCountUpdated chatCountInformation)).

(** ** The group registry *)

(** The two hashes [updateGroup] is called with ([&basicGroups],
    [&superGroups]). *)
Inductive GroupHash : Set :=
  | BasicGroups
  | SuperGroups.

Definition hash (groups : GroupHash) (this : TDLibWrapper) : gmap Z GroupPtr :=
  match groups with
  | BasicGroups => basicGroups this
  | SuperGroups => superGroups this
  end.

Definition set_hash (groups : GroupHash) (x : gmap Z GroupPtr) : TDLibWrapper → TDLibWrapper :=
  match groups with
  | BasicGroups => set_basicGroups x
  | SuperGroups => set_superGroups x
  end.

(** [new Group(groupId)]: a fresh object, at the next address of the
    arena, with empty metadata. *)
Definition new_Group (groupId : Z) : M GroupPtr :=
  λ this,
    (length (groupObjects this),
     set_groupObjects (groupObjects this ++ [mkGroup groupId ∅]) this,
     []).

(** [group->groupInfo = groupInfo] *)
Definition assign_groupInfo (group : GroupPtr) (groupInfo : QVariantMap) : M unit :=
  modify (λ this,
    set_groupObjects
      (alter (λ g, mkGroup (g.(groupId)) groupInfo) group (groupObjects this)) this).

Definition updateGroup (groupId : Z) (groupInfo : QVariantMap) (groups : GroupHash) : M GroupPtr :=
  this ← get_this;
  group ← match hash groups this !! groupId with
          | Some group => mret group
          | None =>
              group ← new_Group groupId;
              this ← get_this;
              modify (set_hash groups (<[groupId := group]> (hash groups this)));;
              mret group
          end;
  assign_groupInfo group groupInfo;;
  mret group.

(** [group->groupId] for a pointer into the arena. *)
Definition groupId_at (group : GroupPtr) : M Z :=
  this ← get_this;
  mret (default 0%Z (groupId <$> groupObjects this !! group)).

Definition handleBasicGroupUpdated (groupId : Z) (groupInformation : QVariantMap) : M unit :=
  group ← updateGroup groupId groupInformation BasicGroups;
  id ← groupId_at group;
  emit (basicGroupUpdated id).

Definition handleSuperGroupUpdated (groupId : Z) (groupInformation : QVariantMap) : M unit :=
  group ← updateGroup groupId groupInformation SuperGroups;
  id ← groupId_at group;
  emit (superGroupUpdated id).

Definition getGroup (this : TDLibWrapper) (groupId : Z) : option GroupPtr :=
  if Z.eqb groupId 0 then None
  else
    match superGroups this !! groupId with
    | Some group => Some group
    | None => basicGroups this !! groupId
    end.

Definition chatMemberStatusFromString (status : string) : ChatMemberStatus :=
  if String.eqb status "chatMemberStatusMember" then ChatMemberStatusMember
  else if String.eqb status "chatMemberStatusLeft" then ChatMemberStatusLeft
  else if String.eqb status "chatMemberStatusCreator" then ChatMemberStatusCreator
  else if String.eqb status "chatMemberStatusAdministrator" then ChatMemberStatusAdministrator
  else if String.eqb status "chatMemberStatusRestricted" then ChatMemberStatusRestricted
  else if String.eqb status "chatMemberStatusBanned" then ChatMemberStatusBanned
  else ChatMemberStatusUnknown.

(** [Group::chatMemberStatus()] *)
Definition chatMemberStatus (group : Group) : ChatMemberStatus :=
  let statusType := toString (value (toMap (value (groupInfo group) STATUS)) _TYPE) in
  if isEmpty statusType then ChatMemberStatusUnknown
  else chatMemberStatusFromString statusType.

(** ** Read accessors *)

Definition getAuthorizationState (this : TDLibWrapper) : AuthorizationState :=
  authorizationState this.

(** [getUserInformation()], the own-user slot. *)
Definition getUserInformation (this : TDLibWrapper) : QVariantMap :=
  userInformation this.

(** [getUserInformation(const QString &userId)] *)
Definition getUserInformation_of (this : TDLibWrapper) (userId : string) : QVariantMap :=
  toMap (value (allUsers this) userId).

Definition getUnreadMessageInformation (this : TDLibWrapper) : QVariantMap :=
  unreadMessageInformation this.

Definition getUnreadChatInformation (this : TDLibWrapper) : QVariantMap :=
  unreadChatInformation this.

Definition getChat (this : TDLibWrapper) (chatId : string) : QVariantMap :=
  toMap (value (chats this) chatId).

Definition getBasicGroup (this : TDLibWrapper) (groupId : Z) : QVariantMap :=
  match basicGroups this !! groupId ≫= λ group, groupObjects this !! group with
  | Some group => groupInfo group
  | None => ∅
  end.

Definition getSuperGroup (this : TDLibWrapper) (groupId : Z) : QVariantMap :=
  match superGroups this !! groupId ≫= λ group, groupObjects this !! group with
  | Some group => groupInfo group
  | None => ∅
  end.

(** ** The update stream *)

(** The signals of the receiver that the constructor connects to the
    handlers above.  The handlers of the remaining [connect] lines
    (messages, notifications, files, chat order and read state) write no
    member: they only re-emit their arguments. *)
Inductive Update : Type :=
  | UVersionDetected (version_ : string)
  | UAuthorizationStateChanged (authorizationState_ : string)
  | UOptionUpdated (optionName : string) (optionValue : QVariant)
  | UConnectionStateChanged (connectionState_ : string)
  | UUserUpdated (userInformation_ : QVariantMap)
  | UUserStatusUpdated (userId : string) (userStatusInformation : QVariantMap)
  | UNewChatDiscovered (chatInformation : QVariantMap)
  | UUnreadMessageCountUpdated (messageCountInformation : QVariantMap)
  | UUnreadChatCountUpdated (chatCountInformation : QVariantMap)
  | UBasicGroupUpdated (groupId : Z) (groupInformation : QVariantMap)
  | USuperGroupUpdated (groupId : Z) (groupInformation : QVariantMap).

Definition deliver (env : Environment) (u : Update) : M unit :=
  match u with
  | UVersionDetected v => handleVersionDetected v
  | UAuthorizationStateChanged a => handleAuthorizationStateChanged env a
  | UOptionUpdated n v => handleOptionUpdated n v
  | UConnectionStateChanged c => handleConnectionStateChanged c
  | UUserUpdated u => handleUserUpdated u
  | UUserStatusUpdated i s => handleUserStatusUpdated i s
  | UNewChatDiscovered c => handleNewChatDiscovered c
  | UUnreadMessageCountUpdated i => handleUnreadMessageCountUpdated i
  | UUnreadChatCountUpdated i => handleUnreadChatCountUpdated i
  | UBasicGroupUpdated i g => handleBasicGroupUpdated i g
  | USuperGroupUpdated i g => handleSuperGroupUpdated i g
  end.

(** Updates are delivered one after the other, in arrival order. *)
Fixpoint deliver_all (env : Environment) (us : list Update) : M unit :=
  match us with
  | [] => mret tt
  | u :: us => deliver env u;; deliver_all env us
  end.

(** The wrapper after construction: every container is empty.  The two
    state members are not set by the constructor and are left open. *)
Definition constructed (a : AuthorizationState) (c : ConnectionState) : TDLibWrapper :=
  mkTDLibWrapper "" a c ∅ ∅ ∅ ∅ ∅ ∅ ∅ ∅ [].

(** ** Commands: the requests the wrapper sends to TDLib *)

(** Each public command builds one request object and hands it to
    [sendRequest].  [QString] arguments are stored as string variants,
    [int], [qlonglong] and [bool] arguments as integer and boolean
    variants.  The two [double] coordinates of [getMapThumbnailFile] are
    taken as the variants they are stored as. *)

Definition setAuthenticationPhoneNumber (phoneNumber : string) : M unit :=
  let requestObject : QVariantMap := ∅ in
  let requestObject := <[_TYPE := VString "setAuthenticationPhoneNumber"]> requestObject in
  let requestObject := <["phone_number" := VString phoneNumber]> requestObject in
  let phoneNumberSettings : QVariantMap := ∅ in
  let phoneNumberSettings := <["allow_flash_call" := VBool false]> phoneNumberSettings in
  let phoneNumberSettings := <["is_current_phone_number" := VBool true]> phoneNumberSettings in
  let requestObject := <["settings" := VMap phoneNumberSettings]> requestObject in
  sendRequest requestObject.

Definition setAuthenticationCode (authenticationCode : string) : M unit :=
  let requestObject : QVariantMap := ∅ in
  let requestObject := <[_TYPE := VString "checkAuthenticationCode"]> requestObject in
  let requestObject := <["code" := VString authenticationCode]> requestObject in
  sendRequest requestObject.

Definition setAuthenticationPassword (authenticationPassword : string) : M unit :=
  let requestObject : QVariantMap := ∅ in
  let requestObject := <[_TYPE := VString "checkAuthenticationPassword"]> requestObject in
  let requestObject := <["password" := VString authenticationPassword]> requestObject in
  sendRequest requestObject.

Definition getChats : M unit :=
  let requestObject : QVariantMap := ∅ in
  let requestObject := <[_TYPE := VString "getChats"]> requestObject in
  let requestObject := <["limit" := VInt 5]> requestObject in
  sendRequest requestObject.

Definition downloadFile (fileId : string) : M unit :=
  let requestObject : QVariantMap := ∅ in
  let requestObject := <[_TYPE := VString "downloadFile"]> requestObject in
  let requestObject := <["file_id" := VString fileId]> requestObject in
  let requestObject := <["synchronous" := VBool false]> requestObject in
  let requestObject := <["offset" := VInt 0]> requestObject in
  let requestObject := <["limit" := VInt 0]> requestObject in
  let requestObject := <["priority" := VInt 1]> requestObject in
  sendRequest requestObject.

Definition openChat (chatId : string) : M unit :=
  let requestObject : QVariantMap := ∅ in
  let requestObject := <[_TYPE := VString "openChat"]> requestObject in
  let requestObject := <["chat_id" := VString chatId]> requestObject in
  sendRequest requestObject.

Definition closeChat (chatId : string) : M unit :=
  let requestObject : QVariantMap := ∅ in
  let requestObject := <[_TYPE := VString "closeChat"]> requestObject in
  let requestObject := <["chat_id" := VString chatId]> requestObject in
  sendRequest requestObject.

Definition getChatHistory (chatId : string) (fromMessageId offset limit : Z)
    (onlyLocal : bool) : M unit :=
  let requestObject : QVariantMap := ∅ in
  let requestObject := <[_TYPE := VString "getChatHistory"]> requestObject in
  let requestObject := <["chat_id" := VString chatId]> requestObject in
  let requestObject := <["from_message_id" := VInt fromMessageId]> requestObject in
  let requestObject := <["offset" := VInt offset]> requestObject in
  let requestObject := <["limit" := VInt limit]> requestObject in
  let requestObject := <["only_local" := VBool onlyLocal]> requestObject in
  sendRequest requestObject.

Definition viewMessage (chatId messageId : string) : M unit :=
  let requestObject : QVariantMap := ∅ in
  let requestObject := <[_TYPE := VString "viewMessages"]> requestObject in
  let requestObject := <["chat_id" := VString chatId]> requestObject in
  let requestObject := <["force_read" := VBool false]> requestObject in
  let messageIds : list QVariant := [] in
  let messageIds := messageIds ++ [VString messageId] in
  let requestObject := <["message_ids" := VList messageIds]> requestObject in
  sendRequest requestObject.

(** The request object of [sendTextMessage], before it is sent. *)
Definition sendTextMessage_request (chatId message replyToMessageId : string) : QVariantMap :=
  let requestObject : QVariantMap := ∅ in
  let requestObject := <[_TYPE := VString "sendMessage"]> requestObject in
  let requestObject := <["chat_id" := VString chatId]> requestObject in
  let requestObject :=
    if negb (String.eqb replyToMessageId "0")
    then <["reply_to_message_id" := VString replyToMessageId]> requestObject
    else requestObject in
  let inputMessageContent : QVariantMap := ∅ in
  let inputMessageContent := <[_TYPE := VString "inputMessageText"]> inputMessageContent in
  let formattedText : QVariantMap := ∅ in
  let formattedText := <["text" := VString message]> formattedText in
  let formattedText := <[_TYPE := VString "formattedText"]> formattedText in
  let inputMessageContent := <["text" := VMap formattedText]> inputMessageContent in
  <["input_message_content" := VMap inputMessageContent]> requestObject.

Definition sendTextMessage (chatId message replyToMessageId : string) : M unit :=
  sendRequest (sendTextMessage_request chatId message replyToMessageId).

(** [sendPhotoMessage], [sendVideoMessage] and [sendDocumentMessage]
    differ in the type of the content and the key of the local file. *)
Definition sendPhotoMessage_request (chatId filePath message replyToMessageId : string) : QVariantMap :=
  let requestObject : QVariantMap := ∅ in
  let requestObject := <[_TYPE := VString "sendMessage"]> requestObject in
  let requestObject := <["chat_id" := VString chatId]> requestObject in
  let requestObject :=
    if negb (String.eqb replyToMessageId "0")
    then <["reply_to_message_id" := VString replyToMessageId]> requestObject
    else requestObject in
  let inputMessageContent : QVariantMap := ∅ in
  let inputMessageContent := <[_TYPE := VString "inputMessagePhoto"]> inputMessageContent in
  let formattedText : QVariantMap := ∅ in
  let formattedText := <["text" := VString message]> formattedText in
  let formattedText := <[_TYPE := VString "formattedText"]> formattedText in
  let inputMessageContent := <["caption" := VMap formattedText]> inputMessageContent in
  let photoInputFile : QVariantMap := ∅ in
  let photoInputFile := <[_TYPE := VString "inputFileLocal"]> photoInputFile in
  let photoInputFile := <["path" := VString filePath]> photoInputFile in
  let inputMessageContent := <["photo" := VMap photoInputFile]> inputMessageContent in
  <["input_message_content" := VMap inputMessageContent]> requestObject.

Definition sendPhotoMessage (chatId filePath message replyToMessageId : string) : M unit :=
  sendRequest (sendPhotoMessage_request chatId filePath message replyToMessageId).

Definition sendVideoMessage_request (chatId filePath message replyToMessageId : string) : QVariantMap :=
  let requestObject : QVariantMap := ∅ in
  let requestObject := <[_TYPE := VString "sendMessage"]> requestObject in
  let requestObject := <["chat_id" := VString chatId]> requestObject in
  let requestObject :=
    if negb (String.eqb replyToMessageId "0")
    then <["reply_to_message_id" := VString replyToMessageId]> requestObject
    else requestObject in
  let inputMessageContent : QVariantMap := ∅ in
  let inputMessageContent := <[_TYPE := VString "inputMessageVideo"]> inputMessageContent in
  let formattedText : QVariantMap := ∅ in
  let formattedText := <["text" := VString message]> formattedText in
  let formattedText := <[_TYPE := VString "formattedText"]> formattedText in
  let inputMessageContent := <["caption" := VMap formattedText]> inputMessageContent in
  let videoInputFile : QVariantMap := ∅ in
  let videoInputFile := <[_TYPE := VString "inputFileLocal"]> videoInputFile in
  let videoInputFile := <["path" := VString filePath]> videoInputFile in
  let inputMessageContent := <["video" := VMap videoInputFile]> inputMessageContent in
  <["input_message_content" := VMap inputMessageContent]> requestObject.

Definition sendVideoMessage (chatId filePath message replyToMessageId : string) : M unit :=
  sendRequest (sendVideoMessage_request chatId filePath message replyToMessageId).

Definition sendDocumentMessage_request (chatId filePath message replyToMessageId : string) : QVariantMap :=
  let requestObject : QVariantMap := ∅ in
  let requestObject := <[_TYPE := VString "sendMessage"]> requestObject in
  let requestObject := <["chat_id" := VString chatId]> requestObject in
  let requestObject :=
    if negb (String.eqb replyToMessageId "0")
    then <["reply_to_message_id" := VString replyToMessageId]> requestObject
    else requestObject in
  let inputMessageContent : QVariantMap := ∅ in
  let inputMessageContent := <[_TYPE := VString "inputMessageDocument"]> inputMessageContent in
  let formattedText : QVariantMap := ∅ in
  let formattedText := <["text" := VString message]> formattedText in
  let formattedText := <[_TYPE := VString "formattedText"]> formattedText in
  let inputMessageContent := <["caption" := VMap formattedText]> inputMessageContent in
  let documentInputFile : QVariantMap := ∅ in
  let documentInputFile := <[_TYPE := VString "inputFileLocal"]> documentInputFile in
  let documentInputFile := <["path" := VString filePath]> documentInputFile in
  let inputMessageContent := <["document" := VMap documentInputFile]> inputMessageContent in
  <["input_message_content" := VMap inputMessageContent]> requestObject.

Definition sendDocumentMessage (chatId filePath message replyToMessageId : string) : M unit :=
  sendRequest (sendDocumentMessage_request chatId filePath message replyToMessageId).

Definition getMessage (chatId messageId : string) : M unit :=
  let requestObject : QVariantMap := ∅ in
  let requestObject := <[_TYPE := VString "getMessage"]> requestObject in
  let requestObject := <["chat_id" := VString chatId]> requestObject in
  let requestObject := <["message_id" := VString messageId]> requestObject in
  sendRequest requestObject.

Definition setOptionInteger (optionName : string) (optionValue : Z) : M unit :=
  let requestObject : QVariantMap := ∅ in
  let requestObject := <[_TYPE := VString "setOption"]> requestObject in
  let requestObject := <["name" := VString optionName]> requestObject in
  let optionValueMap : QVariantMap := ∅ in
  let optionValueMap := <[_TYPE := VString "optionValueInteger"]> optionValueMap in
  let optionValueMap := <["value" := VInt optionValue]> optionValueMap in
  let requestObject := <["value" := VMap optionValueMap]> requestObject in
  sendRequest requestObject.

Definition setChatNotificationSettings (chatId : string) (notificationSettings : QVariantMap) : M unit :=
  let requestObject : QVariantMap := ∅ in
  let requestObject := <[_TYPE := VString "setChatNotificationSettings"]> requestObject in
  let requestObject := <["chat_id" := VString chatId]> requestObject in
  let requestObject := <["notification_settings" := VMap notificationSettings]> requestObject in
  sendRequest requestObject.

Definition editMessageText_request (chatId messageId message : string) : QVariantMap :=
  let requestObject : QVariantMap := ∅ in
  let requestObject := <[_TYPE := VString "editMessageText"]> requestObject in
  let requestObject := <["chat_id" := VString chatId]> requestObject in
  let requestObject := <["message_id" := VString messageId]> requestObject in
  let inputMessageContent : QVariantMap := ∅ in
  let inputMessageContent := <[_TYPE := VString "inputMessageText"]> inputMessageContent in
  let formattedText : QVariantMap := ∅ in
  let formattedText := <["text" := VString message]> formattedText in
  let inputMessageContent := <["text" := VMap formattedText]> inputMessageContent in
  <["input_message_content" := VMap inputMessageContent]> requestObject.

Definition editMessageText (chatId messageId message : string) : M unit :=
  sendRequest (editMessageText_request chatId messageId message).

Definition deleteMessages (chatId : string) (messageIds : list QVariant) : M unit :=
  let requestObject : QVariantMap := ∅ in
  let requestObject := <[_TYPE := VString "deleteMessages"]> requestObject in
  let requestObject := <["chat_id" := VString chatId]> requestObject in
  let requestObject := <["message_ids" := VList messageIds]> requestObject in
  let requestObject := <["revoke" := VBool true]> requestObject in
  sendRequest requestObject.

Definition getMapThumbnailFile_request (chatId : string) (latitude longitude : QVariant)
    (width height : Z) : QVariantMap :=
  let location : QVariantMap := ∅ in
  let location := <["latitude" := latitude]> location in
  let location := <["longitude" := longitude]> location in
  let boundsWidth := Z.min (Z.max width 16) 1024 in
  let boundsHeight := Z.min (Z.max height 16) 1024 in
  let requestObject : QVariantMap := ∅ in
  let requestObject := <[_TYPE := VString "getMapThumbnailFile"]> requestObject in
  let requestObject := <["location" := VMap location]> requestObject in
  let requestObject := <["zoom" := VInt 17]> requestObject in
  let requestObject := <["width" := VInt boundsWidth]> requestObject in
  let requestObject := <["height" := VInt boundsHeight]> requestObject in
  let requestObject := <["scale" := VInt 1]> requestObject in
  <["chat_id" := VString chatId]> requestObject.

Definition getMapThumbnailFile (chatId : string) (latitude longitude : QVariant)
    (width height : Z) : M unit :=
  sendRequest (getMapThumbnailFile_request chatId latitude longitude width height).

Definition setLogVerbosityLevel : M unit :=
  let requestObject : QVariantMap := ∅ in
  let requestObject := <[_TYPE := VString "setLogVerbosityLevel"]> requestObject in
  let requestObject := <["new_verbosity_level" := VInt 2]> requestObject in
  sendRequest requestObject.

(** The commands above, as one type, to speak about all of them. *)
Inductive Command : Type :=
  | CSetAuthenticationPhoneNumber (phoneNumber : string)
  | CSetAuthenticationCode (authenticationCode : string)
  | CSetAuthenticationPassword (authenticationPassword : string)
  | CGetChats
  | CDownloadFile (fileId : string)
  | COpenChat (chatId : string)
  | CCloseChat (chatId : string)
  | CGetChatHistory (chatId : string) (fromMessageId offset limit : Z) (onlyLocal : bool)
  | CViewMessage (chatId messageId : string)
  | CSendTextMessage (chatId message replyToMessageId : string)
  | CSendPhotoMessage (chatId filePath message replyToMessageId : string)
  | CSendVideoMessage (chatId filePath message replyToMessageId : string)
  | CSendDocumentMessage (chatId filePath message replyToMessageId : string)
  | CGetMessage (chatId messageId : string)
  | CSetOptionInteger (optionName : string) (optionValue : Z)
  | CSetChatNotificationSettings (chatId : string) (notificationSettings : QVariantMap)
  | CEditMessageText (chatId messageId message : string)
  | CDeleteMessages (chatId : string) (messageIds : list QVariant)
  | CGetMapThumbnailFile (chatId : string) (latitude longitude : QVariant) (width height : Z)
  | CSetLogVerbosityLevel
  | CSetEncryptionKey
  | CSetInitialParameters (env : Environment).

Definition perform (c : Command) : M unit :=
  match c with
  | CSetAuthenticationPhoneNumber p => setAuthenticationPhoneNumber p
  | CSetAuthenticationCode a => setAuthenticationCode a
  | CSetAuthenticationPassword a => setAuthenticationPassword a
  | CGetChats => getChats
  | CDownloadFile f => downloadFile f
  | COpenChat c => openChat c
  | CCloseChat c => closeChat c
  | CGetChatHistory c f o l b => getChatHistory c f o l b
  | CViewMessage c m => viewMessage c m
  | CSendTextMessage c m r => sendTextMessage c m r
  | CSendPhotoMessage c f m r => sendPhotoMessage c f m r
  | CSendVideoMessage c f m r => sendVideoMessage c f m r
  | CSendDocumentMessage c f m r => sendDocumentMessage c f m r
  | CGetMessage c m => getMessage c m
  | CSetOptionInteger n v => setOptionInteger n v
  | CSetChatNotificationSettings c n => setChatNotificationSettings c n
  | CEditMessageText c i m => editMessageText c i m
  | CDeleteMessages c m => deleteMessages c m
  | CGetMapThumbnailFile c la lo w h => getMapThumbnailFile c la lo w h
  | CSetLogVerbosityLevel => setLogVerbosityLevel
  | CSetEncryptionKey => setEncryptionKey
  | CSetInitialParameters env => setInitialParameters env
  end.

(** ** Settings *)

(** [QVariant::toBool()]: a boolean as it is, a number when it is not
    zero, a string unless it is empty, ["0"] or ["false"] (in any case);
    every other variant gives [false]. *)
Definition lower (a : Ascii.ascii) : Ascii.ascii :=
  let n := Ascii.nat_of_ascii a in
  if (65 <=? n)%nat && (n <=? 90)%nat then Ascii.ascii_of_nat (n + 32) else a.

Fixpoint toLower (s : string) : string :=
  match s with
  | EmptyString => EmptyString
  | String a s => String (lower a) (toLower s)
  end.

Definition toBool (v : QVariant) : bool :=
  match v with
  | VBool b => b
  | VInt n => negb (Z.eqb n 0)
  | VString s =>
      negb (isEmpty s || String.eqb s "0" || String.eqb (toLower s) "false")
  | Invalid | VList _ | VMap _ => false
  end.

(** [QSettings::value(key, defaultValue)] on the stored settings. *)
Definition settings_value (settings : QVariantMap) (key : string) (defaultValue : QVariant) : QVariant :=
  default defaultValue (settings !! key).

(** The [settings] member is a store of its own; [setSendByEnter] and
    [getSendByEnter] touch nothing else. *)
Definition setSendByEnter (sendByEnter : bool) (settings : QVariantMap) : QVariantMap :=
  <["sendByEnter" := VBool sendByEnter]> settings.

Definition getSendByEnter (settings : QVariantMap) : bool :=
  toBool (settings_value settings "sendByEnter" (VBool false)).

(** ** Further read accessors *)

Definition getVersion (this : TDLibWrapper) : string :=
  version this.

Definition getConnectionState (this : TDLibWrapper) : ConnectionState :=
  connectionState this.

(** ** Vocabulary of the properties *)

(** A sequence of [recordOption] calls. *)
Fixpoint recordOptions (calls : list (string * QVariant)) : M unit :=
  match calls with
  | [] => mret tt
  | (optionName, optionValue) :: calls =>
      handleOptionUpdated optionName optionValue;; recordOptions calls
  end.

Definition is_ownUserIdFound (e : Effect) : bool :=
  match e with
  | Emitted (ownUserIdFound _) => true
  | _ => false
  end.

(** How often [ownUserIdFound] occurs in a trace. *)
Definition count_ownUserIdFound (t : list Effect) : nat :=
  length (filter (λ e, is_ownUserIdFound e = true) t).

(** The state strings that [handleAuthorizationStateChanged] tests for. *)
Definition authorizationStateNames : list string :=
  [ "authorizationStateClosed"; "authorizationStateClosing";
    "authorizationStateLoggingOut"; "authorizationStateReady";
    "authorizationStateWaitCode"; "authorizationStateWaitEncryptionKey";
    "authorizationStateWaitOtherDeviceConfirmation";
    "authorizationStateWaitPassword"; "authorizationStateWaitPhoneNumber";
    "authorizationStateWaitRegistration";
    "authorizationStateWaitTdlibParameters" ].

(** The strings [chatMemberStatusFromString] knows, with their values. *)
Definition chatMemberStatusNames : list (string * ChatMemberStatus) :=
  [ ("chatMemberStatusMember", ChatMemberStatusMember);
    ("chatMemberStatusLeft", ChatMemberStatusLeft);
    ("chatMemberStatusCreator", ChatMemberStatusCreator);
    ("chatMemberStatusAdministrator", ChatMemberStatusAdministrator);
    ("chatMemberStatusRestricted", ChatMemberStatusRestricted);
    ("chatMemberStatusBanned", ChatMemberStatusBanned) ].

(** [preserves f m]: running [m] does not change the observation [f] of
    the wrapper. *)
Definition preserves {X A : Type} (f : TDLibWrapper → X) (m : M A) : Prop :=
  ∀ this, f (exec m this) = f this.

(** [u] replaces the whole record of [userId]. *)
Definition is_full_update_for (userId : string) (u : Update) : Prop :=
  match u with
  | UUserUpdated info => toString (value info "id") = userId
  | _ => False
  end.

(** The payloads of the status updates for [userId] in a stream, in
    arrival order. *)
Fixpoint statuses_for (userId : string) (us : list Update) : list QVariantMap :=
  match us with
  | [] => []
  | UUserStatusUpdated i status :: us =>
      if String.eqb i userId
      then status :: statuses_for userId us
      else statuses_for userId us
  | _ :: us => statuses_for userId us
  end.

(** The registry is well formed when every pointer of the two hashes
    is the address of a live object that carries the id it is filed
    under, and no object is filed in both hashes. *)
Definition registry_wf (this : TDLibWrapper) : Prop :=
  (∀ groups id group,
     hash groups this !! id = Some group →
     ∃ g, groupObjects this !! group = Some g ∧ groupId g = id)
  ∧ (∀ id1 id2 group,
       superGroups this !! id1 = Some group →
       basicGroups this !! id2 = Some group → False).

Definition registry (this : TDLibWrapper) :
    gmap Z GroupPtr * gmap Z GroupPtr * list Group :=
  (basicGroups this, superGroups this, groupObjects this).

(** The string found in a request under a path of keys. *)
Definition string_at (path : list string) (request : QVariantMap) : string :=
  toString (foldl (λ v key, value (toMap v) key) (VMap request) path).

(** The state strings that [handleConnectionStateChanged] tests for, with
    the enumerators it assigns. *)
Definition connectionStateNames : list (string * ConnectionState) :=
  [ ("connectionStateConnecting", Connecting);
    ("connectionStateConnectingToProxy", ConnectingToProxy);
    ("connectionStateReady", ConnectionReady);
    ("connectionStateUpdating", Updating);
    ("connectionStateWaitingForNetwork", WaitingForNetwork) ].

(** The enumerator [handleAuthorizationStateChanged] assigns for each of
    the strings it tests for. *)
Definition authorizationStateTable : list (string * AuthorizationState) :=
  [ ("authorizationStateClosed", Closed);
    ("authorizationStateClosing", Closing);
    ("authorizationStateLoggingOut", LoggingOut);
    ("authorizationStateReady", AuthorizationReady);
    ("authorizationStateWaitCode", WaitCode);
    ("authorizationStateWaitEncryptionKey", WaitEncryptionKey);
    ("authorizationStateWaitOtherDeviceConfirmation", WaitOtherDeviceConfirmation);
    ("authorizationStateWaitPassword", WaitPassword);
    ("authorizationStateWaitPhoneNumber", WaitPhoneNumber);
    ("authorizationStateWaitRegistration", WaitRegistration);
    ("authorizationStateWaitTdlibParameters", WaitTdlibParameters) ].

(** The own-user slot holds what the user store holds for the id that
    the [my_id] option names. *)
Definition own_slot_mirrors (this : TDLibWrapper) : Prop :=
  getUserInformation this
  = getUserInformation_of this (toString (value (options this) "my_id")).

(** [u] records the [my_id] option. *)
Definition records_my_id (u : Update) : Prop :=
  match u with
  | UOptionUpdated optionName _ => optionName = "my_id"
  | _ => False
  end.

(** The unread-message-count payloads of a stream that are for the main
    chat list, in arrival order; likewise for unread-chat counts. *)
Fixpoint main_list_message_counts (us : list Update) : list QVariantMap :=
  match us with
  | [] => []
  | UUnreadMessageCountUpdated info :: us =>
      if String.eqb (toString (value info "chat_list_type")) "chatListMain"
      then info :: main_list_message_counts us
      else main_list_message_counts us
  | _ :: us => main_list_message_counts us
  end.

Fixpoint main_list_chat_counts (us : list Update) : list QVariantMap :=
  match us with
  | [] => []
  | UUnreadChatCountUpdated info :: us =>
      if String.eqb (toString (value info "chat_list_type")) "chatListMain"
      then info :: main_list_chat_counts us
      else main_list_chat_counts us
  | _ :: us => main_list_chat_counts us
  end.

(** The values a sequence of [recordOption] calls gives to one option,
    in call order. *)
Fixpoint recorded (optionName : string) (calls : list (string * QVariant)) : list QVariant :=
  match calls with
  | [] => []
  | (name, optionValue) :: calls =>
      if String.eqb name optionName
      then optionValue :: recorded optionName calls
      else recorded optionName calls
  end.

(** The object that a hash files under an id, if the id is known and
    the pointer is live. *)
Definition object_in (groups : GroupHash) (this : TDLibWrapper) (id : Z) : option Group :=
  hash groups this !! id ≫= λ group, groupObjects this !! group.

#[global] Instance GroupHash_eq_dec : EqDecision GroupHash.
Proof. solve_decision. Defined.

(** What the own-user mirroring reads and writes: the options, the
    own-user slot and the user store. *)
Definition user_view (this : TDLibWrapper) : QVariantMap * QVariantMap * QVariantMap :=
  (options this, userInformation this, allUsers this).

(** * Properties *)

(** ** The model on small inputs *)

Example toString_int : toString (VInt 42) = "42" ∧ toString (VInt (-7)) = "-7".
Proof. by vm_compute. Qed.

Example toString_of_missing_key : toString (value ∅ "my_id") = "".
Proof. reflexivity. Qed.

Example toMap_of_string : toMap (VString "x") = ∅.
Proof. reflexivity. Qed.

Example chatMemberStatusFromString_banned :
  chatMemberStatusFromString "chatMemberStatusBanned" = ChatMemberStatusBanned.
Proof. reflexivity. Qed.

Example handleUserUpdated_files_by_id :
  let info : QVariantMap := <["id" := VInt 42]> (<["username" := VString "ada"]> ∅) in
  let this := exec (handleUserUpdated info) (constructed Closed Connecting) in
  getUserInformation_of this "42" = info
  ∧ getUserInformation_of this "43" = ∅
  ∧ getUserInformation this = ∅.
Proof. by vm_compute. Qed.

Example handleBasicGroupUpdated_reuses_object :
  let first : QVariantMap := <["member_count" := VInt 3]> ∅ in
  let second : QVariantMap := <["member_count" := VInt 4]> ∅ in
  let this :=
    exec (handleBasicGroupUpdated 7 first;; handleBasicGroupUpdated 7 second)
      (constructed Closed Connecting) in
  basicGroups this !! 7%Z = Some 0
  ∧ groupObjects this = [mkGroup 7 second]
  ∧ getBasicGroup this 7 = second
  ∧ effects (handleBasicGroupUpdated 7 first;; handleBasicGroupUpdated 7 second)
      (constructed Closed Connecting)
    = [Emitted (basicGroupUpdated 7); Emitted (basicGroupUpdated 7)].
Proof. by vm_compute. Qed.

(** ** Running handlers in sequence *)

Section monad_laws.
Context {A B : Type}.
Implicit Types (m : M A) (k : A → M B) (this : TDLibWrapper).

Lemma exec_bind m k this :
  exec (m ≫= k) this = exec (k (result m this)) (exec m this).
Proof.
  unfold exec, result, mbind, M_bind, bind.
  destruct (m this) as [[a this1] t1]; simpl.
  by destruct (k a this1) as [[b this2] t2].
Qed.

Lemma effects_bind m k this :
  effects (m ≫= k) this
  = effects m this ++ effects (k (result m this)) (exec m this).
Proof.
  unfold effects, exec, result, mbind, M_bind, bind.
  destruct (m this) as [[a this1] t1]; simpl.
  by destruct (k a this1) as [[b this2] t2].
Qed.

Lemma result_bind m k this :
  result (m ≫= k) this = result (k (result m this)) (exec m this).
Proof.
  unfold exec, result, mbind, M_bind, bind.
  destruct (m this) as [[a this1] t1]; simpl.
  by destruct (k a this1) as [[b this2] t2].
Qed.
End monad_laws.

(** ** Options and the own-identity signal *)

Lemma handleOptionUpdated_exec optionName optionValue this :
  exec (handleOptionUpdated optionName optionValue) this
  = set_options (<[optionName := optionValue]> (options this)) this.
Proof.
  unfold handleOptionUpdated, exec, when. cbn.
  by destruct (String.eqb optionName "my_id").
Qed.

Lemma handleOptionUpdated_effects optionName optionValue this :
  effects (handleOptionUpdated optionName optionValue) this
  = Emitted (optionUpdated optionName optionValue)
    :: (if String.eqb optionName "my_id"
        then [Emitted (ownUserIdFound (toString optionValue))] else []).
Proof.
  unfold handleOptionUpdated, effects, when. cbn.
  by destruct (String.eqb optionName "my_id").
Qed.

Lemma count_ownUserIdFound_app t1 t2 :
  count_ownUserIdFound (t1 ++ t2) = count_ownUserIdFound t1 + count_ownUserIdFound t2.
Proof. unfold count_ownUserIdFound. by rewrite filter_app, length_app. Qed.

(** C1, as the code has it: every [handleOptionUpdated] call whose option
    name is [my_id] emits [ownUserIdFound] once, whether or not the value
    differs from the stored one, and calls for other names emit none; over
    a sequence of calls the signal is emitted as often as [my_id] was
    recorded. *)
Theorem ownUserIdFound_per_my_id_call (calls : list (string * QVariant)) (this : TDLibWrapper) :
  count_ownUserIdFound (effects (recordOptions calls) this)
  = length (filter (λ c, c.1 = "my_id") calls).
Proof.
  revert this. induction calls as [|[optionName optionValue] calls IH]; intros this.
  - reflexivity.
  - cbn [recordOptions]. rewrite effects_bind, count_ownUserIdFound_app, IH.
    rewrite handleOptionUpdated_effects, filter_cons. cbn [fst].
    destruct (String.eqb_spec optionName "my_id") as [->|Hne].
    + by rewrite decide_True.
    + by rewrite decide_False.
Qed.

(** C1, the claim as stated fails: with [my_id] already stored as ["42"],
    recording [my_id = "42"] again emits [ownUserIdFound] once more. *)
Lemma ownUserIdFound_emitted_on_replay :
  let this := exec (handleOptionUpdated "my_id" (VString "42")) (constructed Closed Connecting) in
  options this !! "my_id" = Some (VString "42")
  ∧ exec (handleOptionUpdated "my_id" (VString "42")) this = this
  ∧ effects (handleOptionUpdated "my_id" (VString "42")) this
    = [Emitted (optionUpdated "my_id" (VString "42")); Emitted (ownUserIdFound "42")]
  ∧ count_ownUserIdFound (effects (handleOptionUpdated "my_id" (VString "42")) this) = 1.
Proof. vm_compute. done. Qed.

(** ** The chat store *)

Lemma handleNewChatDiscovered_exec chatInformation this :
  exec (handleNewChatDiscovered chatInformation) this
  = set_chats (<[toString (value chatInformation "id") := VMap chatInformation]> (chats this)) this.
Proof. reflexivity. Qed.

(** C2, as the code has it: [handleNewChatDiscovered] stores the incoming
    field map as the whole record of the chat named by its [id] field,
    whether or not a record was there (the keys of an existing record
    that the incoming map lacks are dropped); the records of all other
    chats stay as they were. *)
Theorem handleNewChatDiscovered_replaces_record
    (chatInformation : QVariantMap) (this : TDLibWrapper) (chatId : string) :
  getChat (exec (handleNewChatDiscovered chatInformation) this) chatId
  = if String.eqb chatId (toString (value chatInformation "id"))
    then chatInformation
    else getChat this chatId.
Proof.
  rewrite handleNewChatDiscovered_exec. unfold getChat.
  generalize (toString (value chatInformation "id")); intros key.
  unfold value; cbn.
  destruct (String.eqb_spec chatId key) as [->|Hne].
  - by rewrite lookup_insert_eq.
  - by rewrite lookup_insert_ne.
Qed.

(** C2, the claim as stated fails: chat ["100"] is known with a [title];
    an update for the same chat that carries only [id] and [order] leaves
    a record without [title]. *)
Lemma handleNewChatDiscovered_drops_old_keys :
  let first : QVariantMap := <["id" := VInt 100]> (<["title" := VString "Team"]> ∅) in
  let second : QVariantMap := <["id" := VInt 100]> (<["order" := VString "7"]> ∅) in
  let this := exec (handleNewChatDiscovered first) (constructed Closed Connecting) in
  getChat this "100" !! "title" = Some (VString "Team")
  ∧ second !! "title" = None
  ∧ getChat (exec (handleNewChatDiscovered second) this) "100" !! "title" = None.
Proof. vm_compute. done. Qed.

(** C9: replaying [handleNewChatDiscovered] with the same payload leaves
    the wrapper, and so the chat store, as one application left it. *)
Theorem handleNewChatDiscovered_idempotent (chatInformation : QVariantMap) (this : TDLibWrapper) :
  exec (handleNewChatDiscovered chatInformation)
    (exec (handleNewChatDiscovered chatInformation) this)
  = exec (handleNewChatDiscovered chatInformation) this.
Proof.
  rewrite !handleNewChatDiscovered_exec. unfold set_chats; cbn.
  by rewrite insert_insert_eq.
Qed.

(** ** Unread counters *)

(** C8: an unread-message-count or unread-chat-count update whose
    [chat_list_type] is not ["chatListMain"] changes nothing and emits
    nothing; one whose [chat_list_type] is ["chatListMain"] becomes the
    snapshot of its kind as a whole, leaves the other snapshot alone and
    emits the signal of its kind. *)
Theorem unread_updates_only_for_chatListMain (info : QVariantMap) (this : TDLibWrapper) :
  (toString (value info "chat_list_type") ≠ "chatListMain" →
     exec (handleUnreadMessageCountUpdated info) this = this
     ∧ effects (handleUnreadMessageCountUpdated info) this = []
     ∧ exec (handleUnreadChatCountUpdated info) this = this
     ∧ effects (handleUnreadChatCountUpdated info) this = [])
  ∧ (toString (value info "chat_list_type") = "chatListMain" →
     getUnreadMessageInformation (exec (handleUnreadMessageCountUpdated info) this) = info
     ∧ getUnreadChatInformation (exec (handleUnreadMessageCountUpdated info) this)
       = getUnreadChatInformation this
     ∧ effects (handleUnreadMessageCountUpdated info) this
       = [Emitted (unreadMessageCountUpdated info)]
     ∧ getUnreadChatInformation (exec (handleUnreadChatCountUpdated info) this) = info
     ∧ getUnreadMessageInformation (exec (handleUnreadChatCountUpdated info) this)
       = getUnreadMessageInformation this
     ∧ effects (handleUnreadChatCountUpdated info) this
       = [Emitted (unreadChatCountUpdated info)]).
Proof.
  unfold handleUnreadMessageCountUpdated, handleUnreadChatCountUpdated.
  split; intros Htype.
  - apply String.eqb_neq in Htype. rewrite Htype. by destruct this.
  - apply String.eqb_eq in Htype. by rewrite Htype.
Qed.

Lemma unread_updates_only_for_chatListMain_witness :
  let other : QVariantMap := <["chat_list_type" := VString "chatListArchive"]> (<["unread_count" := VInt 3]> ∅) in
  let main : QVariantMap := <["chat_list_type" := VString "chatListMain"]> (<["unread_count" := VInt 5]> ∅) in
  let this := constructed Closed Connecting in
  (exec (handleUnreadMessageCountUpdated other) this = this
   ∧ effects (handleUnreadMessageCountUpdated other) this = []
   ∧ exec (handleUnreadChatCountUpdated other) this = this
   ∧ effects (handleUnreadChatCountUpdated other) this = [])
  ∧ getUnreadMessageInformation (exec (handleUnreadMessageCountUpdated main) this) = main.
Proof.
  intros other main this. split.
  - apply (proj1 (unread_updates_only_for_chatListMain other this)).
    vm_compute. discriminate.
  - apply (proj2 (unread_updates_only_for_chatListMain main this)).
    vm_compute. reflexivity.
Defined.

(** ** Authorization state *)

Lemma eqb_name_outside (s name : string) (names : list string) :
  s ∉ names → name ∈ names → String.eqb s name = false.
Proof. intros Hs Hname. apply String.eqb_neq. by intros ->. Qed.

(** C10: a state string outside the eleven recognised ones leaves the
    wrapper as it was, sends nothing to TDLib, and still emits
    [authorizationStateChanged] with the state stored before. *)
Theorem handleAuthorizationStateChanged_unrecognized
    (env : Environment) (s : string) (this : TDLibWrapper) :
  s ∉ authorizationStateNames →
  exec (handleAuthorizationStateChanged env s) this = this
  ∧ getAuthorizationState (exec (handleAuthorizationStateChanged env s) this)
    = getAuthorizationState this
  ∧ effects (handleAuthorizationStateChanged env s) this
    = [Emitted (authorizationStateChanged (getAuthorizationState this))].
Proof.
  intros Hs. unfold handleAuthorizationStateChanged.
  rewrite !(eqb_name_outside s _ authorizationStateNames Hs)
    by (unfold authorizationStateNames; set_solver).
  done.
Qed.

Lemma handleAuthorizationStateChanged_unrecognized_witness :
  let env := mkEnvironment (VInt 1) (VString "hash") "/data" "en_GB" "Phone" "Sailfish" in
  let this := constructed WaitCode Connecting in
  exec (handleAuthorizationStateChanged env "authorizationStateFrobnicated") this = this
  ∧ getAuthorizationState
      (exec (handleAuthorizationStateChanged env "authorizationStateFrobnicated") this)
    = WaitCode
  ∧ effects (handleAuthorizationStateChanged env "authorizationStateFrobnicated") this
    = [Emitted (authorizationStateChanged WaitCode)].
Proof.
  intros env this.
  apply (handleAuthorizationStateChanged_unrecognized env
           "authorizationStateFrobnicated" this).
  unfold authorizationStateNames. rewrite !not_elem_of_cons.
  repeat split; try discriminate. apply not_elem_of_nil.
Defined.

(** ** Membership status of a group *)

Lemma chatMemberStatusFromString_known (s : string) (e : ChatMemberStatus) :
  (s, e) ∈ chatMemberStatusNames → chatMemberStatusFromString s = e.
Proof.
  unfold chatMemberStatusNames. rewrite !elem_of_cons, elem_of_nil.
  intros H. repeat (destruct H as [H|H]; [by simplify_eq|]). done.
Qed.

Lemma chatMemberStatusFromString_unknown (s : string) :
  s ∉ chatMemberStatusNames.*1 → chatMemberStatusFromString s = ChatMemberStatusUnknown.
Proof.
  intros Hs. unfold chatMemberStatusFromString.
  rewrite !(eqb_name_outside s _ _ Hs) by (cbn; set_solver).
  done.
Qed.

Lemma chatMemberStatus_typed (group : Group) (status : QVariantMap) (s : string) :
  groupInfo group !! "status" = Some (VMap status) →
  status !! "@type" = Some (VString s) →
  chatMemberStatus group
  = if isEmpty s then ChatMemberStatusUnknown else chatMemberStatusFromString s.
Proof.
  intros Hstatus Htype. unfold chatMemberStatus, value, STATUS, _TYPE.
  rewrite Hstatus; cbn. by rewrite Htype.
Qed.

(** C7: [chatMemberStatus()] is [Unknown] for a group without a [status]
    field and for a group whose [status.@type] is a string outside the six
    recognised ones; each recognised string gives its enumerator. *)
Theorem chatMemberStatus_table (group : Group) :
  (groupInfo group !! "status" = None →
     chatMemberStatus group = ChatMemberStatusUnknown)
  ∧ (∀ (status : QVariantMap) (s : string),
       groupInfo group !! "status" = Some (VMap status) →
       status !! "@type" = Some (VString s) →
       s ∉ chatMemberStatusNames.*1 →
       chatMemberStatus group = ChatMemberStatusUnknown)
  ∧ (∀ (status : QVariantMap) (s : string) (e : ChatMemberStatus),
       groupInfo group !! "status" = Some (VMap status) →
       status !! "@type" = Some (VString s) →
       (s, e) ∈ chatMemberStatusNames →
       chatMemberStatus group = e).
Proof.
  split; [|split].
  - intros Hnone. unfold chatMemberStatus, value, STATUS. by rewrite Hnone.
  - intros status s Hstatus Htype Hs.
    rewrite (chatMemberStatus_typed _ _ _ Hstatus Htype).
    rewrite chatMemberStatusFromString_unknown by done. by destruct (isEmpty s).
  - intros status s e Hstatus Htype Hs.
    rewrite (chatMemberStatus_typed _ _ _ Hstatus Htype).
    rewrite (chatMemberStatusFromString_known _ _ Hs).
    destruct s; [|done].
    revert Hs. unfold chatMemberStatusNames. rewrite !elem_of_cons, elem_of_nil.
    intros H. repeat (destruct H as [H|H]; [by simplify_eq|]). done.
Qed.

Lemma chatMemberStatus_table_witness :
  chatMemberStatus (mkGroup 7 (<["title" := VString "Team"]> ∅)) = ChatMemberStatusUnknown
  ∧ chatMemberStatus
      (mkGroup 7 (<["status" := VMap (<["@type" := VString "chatMemberStatusFrobnicated"]> ∅)]> ∅))
    = ChatMemberStatusUnknown
  ∧ chatMemberStatus
      (mkGroup 7 (<["status" := VMap (<["@type" := VString "chatMemberStatusCreator"]> ∅)]> ∅))
    = ChatMemberStatusCreator.
Proof.
  split; [|split].
  - apply (proj1 (chatMemberStatus_table (mkGroup 7 (<["title" := VString "Team"]> ∅)))).
    reflexivity.
  - eapply (proj1 (proj2 (chatMemberStatus_table
              (mkGroup 7 (<["status" := VMap (<["@type" := VString "chatMemberStatusFrobnicated"]> ∅)]> ∅))))).
    + reflexivity.
    + reflexivity.
    + cbn. rewrite !not_elem_of_cons. repeat split; try discriminate. apply not_elem_of_nil.
  - eapply (proj2 (proj2 (chatMemberStatus_table
              (mkGroup 7 (<["status" := VMap (<["@type" := VString "chatMemberStatusCreator"]> ∅)]> ∅))))).
    + reflexivity.
    + reflexivity.
    + unfold chatMemberStatusNames. rewrite !elem_of_cons. right; right; left. reflexivity.
Defined.

(** ** Frame lemmas: what a handler leaves alone *)

Section preserves.
Context {X : Type} (f : TDLibWrapper → X).

Lemma preserves_ret {A : Type} (a : A) : preserves f (mret a).
Proof. by intros this. Qed.

Lemma preserves_get : preserves f get_this.
Proof. by intros this. Qed.

Lemma preserves_emit (s : Signal) : preserves f (emit s).
Proof. by intros this. Qed.

Lemma preserves_send (requestObject : QVariantMap) :
  preserves f (sendRequest requestObject).
Proof. by intros this. Qed.

Lemma preserves_modify (g : TDLibWrapper → TDLibWrapper) :
  (∀ this, f (g this) = f this) → preserves f (modify g).
Proof. intros Hg this. apply Hg. Qed.

Lemma preserves_bind {A B : Type} (m : M A) (k : A → M B) :
  preserves f m → (∀ a, preserves f (k a)) → preserves f (m ≫= k).
Proof. intros Hm Hk this. by rewrite exec_bind, Hk, Hm. Qed.

Lemma preserves_when (c : bool) (body : M unit) :
  preserves f body → preserves f (when c body).
Proof. intros Hbody. destruct c; [done|]. by intros this. Qed.
End preserves.

Ltac frame_step :=
  first
    [ apply preserves_bind; [|intros ?]
    | apply preserves_when
    | apply preserves_ret
    | apply preserves_get
    | apply preserves_emit
    | apply preserves_send
    | apply preserves_modify; intros []; reflexivity ].

Ltac frame := repeat frame_step.

(** The handlers that touch neither the user store nor the own-user slot
    nor the options. *)
Lemma handleVersionDetected_preserves {X : Type} (f : TDLibWrapper → X) v :
  (∀ x this, f (set_version x this) = f this) →
  preserves f (handleVersionDetected v).
Proof.
  intros Hf. unfold handleVersionDetected.
  apply preserves_bind; [by apply preserves_modify|intros ?; apply preserves_emit].
Qed.

Lemma handleAuthorizationStateChanged_preserves {X : Type} (f : TDLibWrapper → X) env s :
  (∀ x this, f (set_authorizationState x this) = f this) →
  preserves f (handleAuthorizationStateChanged env s).
Proof.
  intros Hf.
  unfold handleAuthorizationStateChanged, setEncryptionKey, setInitialParameters.
  repeat first [ frame_step | by apply preserves_modify ].
Qed.

Lemma handleConnectionStateChanged_preserves {X : Type} (f : TDLibWrapper → X) s :
  (∀ x this, f (set_connectionState x this) = f this) →
  preserves f (handleConnectionStateChanged s).
Proof.
  intros Hf. unfold handleConnectionStateChanged.
  repeat first [ frame_step | by apply preserves_modify ].
Qed.

Lemma handleOptionUpdated_preserves {X : Type} (f : TDLibWrapper → X) n v :
  (∀ x this, f (set_options x this) = f this) →
  preserves f (handleOptionUpdated n v).
Proof.
  intros Hf. unfold handleOptionUpdated.
  repeat first [ frame_step | by apply preserves_modify ].
Qed.

Lemma handleNewChatDiscovered_preserves {X : Type} (f : TDLibWrapper → X) c :
  (∀ x this, f (set_chats x this) = f this) →
  preserves f (handleNewChatDiscovered c).
Proof.
  intros Hf. unfold handleNewChatDiscovered.
  repeat first [ frame_step | by apply preserves_modify ].
Qed.

Lemma handleUnreadMessageCountUpdated_preserves {X : Type} (f : TDLibWrapper → X) i :
  (∀ x this, f (set_unreadMessageInformation x this) = f this) →
  preserves f (handleUnreadMessageCountUpdated i).
Proof.
  intros Hf. unfold handleUnreadMessageCountUpdated.
  repeat first [ frame_step | by apply preserves_modify ].
Qed.

Lemma handleUnreadChatCountUpdated_preserves {X : Type} (f : TDLibWrapper → X) i :
  (∀ x this, f (set_unreadChatInformation x this) = f this) →
  preserves f (handleUnreadChatCountUpdated i).
Proof.
  intros Hf. unfold handleUnreadChatCountUpdated.
  repeat first [ frame_step | by apply preserves_modify ].
Qed.

Lemma updateGroup_preserves {X : Type} (f : TDLibWrapper → X) i g groups :
  (∀ x this, f (set_basicGroups x this) = f this) →
  (∀ x this, f (set_superGroups x this) = f this) →
  (∀ x this, f (set_groupObjects x this) = f this) →
  preserves f (updateGroup i g groups).
Proof.
  intros Hb Hs Ho. unfold updateGroup, assign_groupInfo.
  apply preserves_bind; [apply preserves_get|intros this0].
  apply preserves_bind; [|intros p].
  - destruct (hash groups this0 !! i); [apply preserves_ret|].
    apply preserves_bind; [intros this; apply Ho|intros p].
    apply preserves_bind; [apply preserves_get|intros this1].
    apply preserves_bind; [|intros ?; apply preserves_ret].
    apply preserves_modify. intros this. destruct groups; [apply Hb|apply Hs].
  - apply preserves_bind; [|intros ?; apply preserves_ret].
    apply preserves_modify. intros this. apply Ho.
Qed.

Lemma handleGroupUpdated_preserves {X : Type} (f : TDLibWrapper → X) i g :
  (∀ x this, f (set_basicGroups x this) = f this) →
  (∀ x this, f (set_superGroups x this) = f this) →
  (∀ x this, f (set_groupObjects x this) = f this) →
  preserves f (handleBasicGroupUpdated i g) ∧ preserves f (handleSuperGroupUpdated i g).
Proof.
  intros Hb Hs Ho. unfold handleBasicGroupUpdated, handleSuperGroupUpdated, groupId_at.
  split.
  - apply preserves_bind; [by apply updateGroup_preserves|intros p]. frame.
  - apply preserves_bind; [by apply updateGroup_preserves|intros p]. frame.
Qed.

(** ** The user store and the own-user slot *)

Lemma handleUserUpdated_exec info this :
  exec (handleUserUpdated info) this
  = set_allUsers (<[toString (value info "id") := VMap info]> (allUsers this))
      (if String.eqb (toString (value info "id")) (toString (value (options this) "my_id"))
       then set_userInformation info this else this).
Proof.
  unfold handleUserUpdated, exec, when, mbind, M_bind, bind, get_this; cbn.
  by destruct (String.eqb _ _).
Qed.

Lemma handleUserStatusUpdated_exec userId status this :
  exec (handleUserStatusUpdated userId status) this
  = set_allUsers
      (<[userId := VMap (<["status" := VMap status]> (toMap (value (allUsers this) userId)))]>
         (allUsers this))
      (if String.eqb userId (toString (value (options this) "my_id"))
       then set_userInformation (<["status" := VMap status]> (userInformation this)) this
       else this).
Proof.
  unfold handleUserStatusUpdated, exec, when, mbind, M_bind, bind, get_this; cbn.
  by destruct (String.eqb _ _).
Qed.

Lemma getUserInformation_of_insert (users : QVariantMap) (key userId : string)
    (record : QVariantMap) (this : TDLibWrapper) :
  getUserInformation_of (set_allUsers (<[key := VMap record]> users) this) userId
  = if String.eqb key userId then record else toMap (value users userId).
Proof.
  unfold getUserInformation_of, value; cbn.
  destruct (String.eqb_spec key userId) as [->|Hne].
  - by rewrite lookup_insert_eq.
  - by rewrite lookup_insert_ne.
Qed.

(** A status update replaces the [status] field of the record of its user
    and nothing else, in the store and, for the own id, in the own-user
    slot. *)
Lemma handleUserStatusUpdated_record userId status this other :
  getUserInformation_of (exec (handleUserStatusUpdated userId status) this) other
  = if String.eqb userId other
    then <["status" := VMap status]> (getUserInformation_of this userId)
    else getUserInformation_of this other.
Proof.
  by rewrite handleUserStatusUpdated_exec, getUserInformation_of_insert.
Qed.

Lemma handleUserStatusUpdated_own_slot userId status this :
  getUserInformation (exec (handleUserStatusUpdated userId status) this)
  = if String.eqb userId (toString (value (options this) "my_id"))
    then <["status" := VMap status]> (getUserInformation this)
    else getUserInformation this.
Proof.
  rewrite handleUserStatusUpdated_exec. unfold getUserInformation.
  by destruct (String.eqb _ _).
Qed.

Lemma deliver_all_app env us1 us2 this :
  exec (deliver_all env (us1 ++ us2)) this
  = exec (deliver_all env us2) (exec (deliver_all env us1) this).
Proof.
  revert this. induction us1 as [|u us1 IH]; intros this; [done|].
  cbn [deliver_all app]. by rewrite !exec_bind, IH.
Qed.

Lemma deliver_all_cons env u us this :
  exec (deliver_all env (u :: us)) this
  = exec (deliver_all env us) (exec (deliver env u) this).
Proof. cbn [deliver_all]. by rewrite exec_bind. Qed.

(** Updates that are neither user nor user-status updates leave the user
    store alone. *)
Lemma deliver_allUsers env u this :
  allUsers (exec (deliver env u) this)
  = match u with
    | UUserUpdated info => allUsers (exec (handleUserUpdated info) this)
    | UUserStatusUpdated i status => allUsers (exec (handleUserStatusUpdated i status) this)
    | _ => allUsers this
    end.
Proof.
  destruct u; cbn [deliver].
  - by apply handleVersionDetected_preserves.
  - by apply handleAuthorizationStateChanged_preserves.
  - by apply handleOptionUpdated_preserves.
  - by apply handleConnectionStateChanged_preserves.
  - reflexivity.
  - reflexivity.
  - by apply handleNewChatDiscovered_preserves.
  - by apply handleUnreadMessageCountUpdated_preserves.
  - by apply handleUnreadChatCountUpdated_preserves.
  - by apply (handleGroupUpdated_preserves allUsers).
  - by apply (handleGroupUpdated_preserves allUsers).
Qed.

Lemma deliver_record env u this userId :
  ¬ is_full_update_for userId u →
  getUserInformation_of (exec (deliver env u) this) userId
  = match u with
    | UUserStatusUpdated i status =>
        if String.eqb i userId
        then <["status" := VMap status]> (getUserInformation_of this userId)
        else getUserInformation_of this userId
    | _ => getUserInformation_of this userId
    end.
Proof.
  intros Hfull.
  destruct u as [| | | |info|i status| | | | |];
    try (unfold getUserInformation_of; by rewrite deliver_allUsers).
  - cbn [deliver]. rewrite handleUserUpdated_exec, getUserInformation_of_insert.
    by destruct (String.eqb_spec (toString (value info "id")) userId) as [Heq|_].
  - cbn [deliver]. rewrite handleUserStatusUpdated_record.
    by destruct (String.eqb_spec i userId) as [->|_].
Qed.

(** After a stream without a full update for [userId], the fields other
    than [status] are those of the start, and [status] is that of the
    last status update for [userId], if there was one. *)
Lemma deliver_all_statuses env us userId :
  Forall (λ u, ¬ is_full_update_for userId u) us →
  ∀ this,
    let final := getUserInformation_of (exec (deliver_all env us) this) userId in
    (∀ key, key ≠ "status" → final !! key = getUserInformation_of this userId !! key)
    ∧ final !! "status"
      = match last (statuses_for userId us) with
        | Some status => Some (VMap status)
        | None => getUserInformation_of this userId !! "status"
        end.
Proof.
  induction 1 as [|u us Hu _ IH]; intros this; cbn zeta;
    [split; [intros; reflexivity|reflexivity]|].
  rewrite deliver_all_cons.
  destruct (IH (exec (deliver env u) this)) as [IHkeys IHstatus].
  rewrite (deliver_record _ _ _ _ Hu) in IHkeys, IHstatus.
  cbn [statuses_for].
  destruct u as [| | | | |i status| | | | |]; try (by split).
  revert IHkeys IHstatus.
  destruct (String.eqb i userId); intros IHkeys IHstatus; [|by split].
  split.
  - intros key Hkey. rewrite IHkeys by done. by rewrite lookup_insert_ne.
  - rewrite IHstatus.
    destruct (statuses_for userId us) as [|status' sts] eqn:Hsts.
    + cbn. by rewrite lookup_insert_eq.
    + rewrite last_cons_cons.
      destruct (last (status' :: sts)) eqn:Hlast; [done|].
      by apply last_None in Hlast.
Qed.

Lemma handleUserUpdated_record info this :
  getUserInformation_of (exec (handleUserUpdated info) this) (toString (value info "id"))
  = info.
Proof.
  rewrite handleUserUpdated_exec, getUserInformation_of_insert.
  by rewrite String.eqb_refl.
Qed.

(** After the last full update [info] of a user, only status updates
    change the record: the other fields are those of [info], and
    [status] is that of the last status update that came after [info],
    or the one [info] carried when none came. *)
Lemma deliver_all_last_writer env pre info post this :
  Forall (λ u, ¬ is_full_update_for (toString (value info "id")) u) post →
  let userId := toString (value info "id") in
  let final :=
    getUserInformation_of
      (exec (deliver_all env (pre ++ UUserUpdated info :: post)) this) userId in
  (∀ key, key ≠ "status" → final !! key = info !! key)
  ∧ final !! "status"
    = match last (statuses_for userId post) with
      | Some status => Some (VMap status)
      | None => info !! "status"
      end.
Proof.
  intros Hpost userId final. subst final.
  rewrite deliver_all_app, deliver_all_cons.
  pose proof (deliver_all_statuses env post userId Hpost
                (exec (deliver env (UUserUpdated info)) (exec (deliver_all env pre) this)))
    as Hfinal.
  cbn zeta in Hfinal. cbn [deliver] in Hfinal.
  subst userId. by rewrite handleUserUpdated_record in Hfinal.
Qed.

(** C3, as the code has it: a status update replaces the [status] field
    of the record of its user and leaves the other fields and the other
    users alone; when its id is the string of the stored [my_id] option,
    the own-user slot gets the same replacement.  In a stream of updates,
    the fields other than [status] of a user are those of the last full
    update for that user; [status] is that of the last status update only
    when it came after that full update, otherwise the record has the
    [status] field the full update carried. *)
Theorem user_status_merge :
  (∀ (userId : string) (status : QVariantMap) (this : TDLibWrapper),
     let after := exec (handleUserStatusUpdated userId status) this in
     getUserInformation_of after userId !! "status" = Some (VMap status)
     ∧ (∀ key, key ≠ "status" →
          getUserInformation_of after userId !! key
          = getUserInformation_of this userId !! key)
     ∧ (∀ other, other ≠ userId →
          getUserInformation_of after other = getUserInformation_of this other)
     ∧ (userId = toString (value (options this) "my_id") →
          getUserInformation after
          = <["status" := VMap status]> (getUserInformation this)))
  ∧ (∀ (env : Environment) (pre post : list Update) (info : QVariantMap)
       (this : TDLibWrapper),
       let userId := toString (value info "id") in
       let final :=
         getUserInformation_of
           (exec (deliver_all env (pre ++ UUserUpdated info :: post)) this) userId in
       Forall (λ u, ¬ is_full_update_for userId u) post →
       (∀ key, key ≠ "status" → final !! key = info !! key)
       ∧ final !! "status"
         = match last (statuses_for userId post) with
           | Some status => Some (VMap status)
           | None => info !! "status"
           end).
Proof.
  split.
  - intros userId status this after. subst after.
    rewrite !handleUserStatusUpdated_record, String.eqb_refl.
    repeat split.
    + by rewrite lookup_insert_eq.
    + intros key Hkey. by rewrite lookup_insert_ne.
    + intros other Hother. rewrite handleUserStatusUpdated_record.
      apply not_eq_sym, String.eqb_neq in Hother. by rewrite Hother.
    + intros Hown. rewrite handleUserStatusUpdated_own_slot.
      apply String.eqb_eq in Hown. by rewrite Hown.
  - intros env pre post info this userId final Hpost.
    by apply deliver_all_last_writer.
Qed.

(** C3, the claim as stated fails: a status update (online) followed by a
    full update of the same user (carrying status offline) leaves the
    record with the status of the full update, not with that of the last
    status update. *)
Lemma status_update_before_full_update_is_lost :
  let online : QVariantMap := <["@type" := VString "userStatusOnline"]> ∅ in
  let offline : QVariantMap := <["@type" := VString "userStatusOffline"]> ∅ in
  let info : QVariantMap :=
    <["id" := VInt 42]> (<["first_name" := VString "Ada"]> (<["status" := VMap offline]> ∅)) in
  let final :=
    getUserInformation_of
      (exec (handleUserStatusUpdated "42" online;; handleUserUpdated info)
         (constructed Closed Connecting)) "42" in
  toString (value online "@type") = "userStatusOnline"
  ∧ toString (value (toMap (value final "status")) "@type") = "userStatusOffline"
  ∧ final !! "status" ≠ Some (VMap online).
Proof.
  vm_compute. repeat split. discriminate.
Qed.

Lemma user_status_merge_witness :
  let env := mkEnvironment (VInt 1) (VString "hash") "/data" "en_GB" "Phone" "Sailfish" in
  let online : QVariantMap := <["@type" := VString "userStatusOnline"]> ∅ in
  let info : QVariantMap :=
    <["id" := VInt 42]> (<["first_name" := VString "Ada"]> ∅) in
  let final :=
    getUserInformation_of
      (exec (deliver_all env
               ([UUserStatusUpdated "42" ∅]
                ++ UUserUpdated info :: [UUserStatusUpdated "42" online; UUserStatusUpdated "7" ∅]))
         (constructed Closed Connecting)) "42" in
  final !! "first_name" = Some (VString "Ada")
  ∧ final !! "status" = Some (VMap online).
Proof.
  intros env online info final.
  destruct (proj2 user_status_merge env [UUserStatusUpdated "42" ∅]
              [UUserStatusUpdated "42" online; UUserStatusUpdated "7" ∅] info
              (constructed Closed Connecting)) as [Hkeys Hstatus].
  - repeat constructor; intros [].
  - split.
    + apply (Hkeys "first_name"). discriminate.
    + apply Hstatus.
Defined.

(** ** Own-user mirroring *)

(** C4: once [my_id] is recorded with value [v], a full update for the id
    [v] becomes the own-user slot that [getUserInformation()] returns.
    Recording an option never writes the own-user slot, so a full update
    for [v] that came while [my_id] was unknown (and left the slot alone)
    is not mirrored when [my_id] resolves to [v] afterwards. *)
Theorem own_user_mirroring (this : TDLibWrapper) (v : QVariant) (info : QVariantMap) :
  toString (value info "id") = toString v →
  getUserInformation
    (exec (handleOptionUpdated "my_id" v;; handleUserUpdated info) this) = info
  ∧ (∀ optionName optionValue this',
       getUserInformation (exec (handleOptionUpdated optionName optionValue) this')
       = getUserInformation this')
  ∧ (options this !! "my_id" = None →
     toString v ≠ "" →
     getUserInformation (exec (handleUserUpdated info) this) = getUserInformation this
     ∧ getUserInformation
         (exec (handleUserUpdated info;; handleOptionUpdated "my_id" v) this)
       = getUserInformation this).
Proof.
  intros Hid. split; [|split].
  - rewrite exec_bind, handleUserUpdated_exec, handleOptionUpdated_exec.
    unfold getUserInformation, value; cbn. rewrite lookup_insert_eq; cbn.
    apply String.eqb_eq in Hid. unfold value in Hid. by rewrite Hid.
  - intros optionName optionValue this'. by rewrite handleOptionUpdated_exec.
  - intros Hunknown Hv.
    assert (getUserInformation (exec (handleUserUpdated info) this)
            = getUserInformation this) as Hbefore.
    { rewrite handleUserUpdated_exec.
      replace (value (options this) "my_id") with Invalid
        by (unfold value; by rewrite Hunknown).
      rewrite Hid. apply String.eqb_neq in Hv. cbn [toString]. by rewrite Hv. }
    split; [done|].
    by rewrite exec_bind, handleOptionUpdated_exec.
Qed.

Lemma own_user_mirroring_witness :
  let info : QVariantMap :=
    <["id" := VInt 42]> (<["first_name" := VString "Ada"]> ∅) in
  let this := constructed Closed Connecting in
  getUserInformation
    (exec (handleOptionUpdated "my_id" (VString "42");; handleUserUpdated info) this) = info
  ∧ getUserInformation
      (exec (handleUserUpdated info;; handleOptionUpdated "my_id" (VString "42")) this) = ∅.
Proof.
  intros info this.
  destruct (own_user_mirroring this (VString "42") info) as (Hafter & _ & Hbefore).
  - vm_compute. reflexivity.
  - split; [exact Hafter|].
    apply Hbefore; [reflexivity|discriminate].
Defined.

(** ** The group registry: lookup order and object identity *)

Lemma alter_new_object (objects : list Group) (f : Group → Group) (g : Group) :
  alter f (length objects) (objects ++ [g]) = objects ++ [f g].
Proof.
  induction objects as [|o objects IH]; [done|].
  cbn. f_equal. apply IH.
Qed.

(** What [updateGroup] returns and leaves, by whether the id is known in
    the hash it is given. *)
Lemma updateGroup_run (id : Z) (info : QVariantMap) (groups : GroupHash) (this : TDLibWrapper) :
  updateGroup id info groups this
  = match hash groups this !! id with
    | Some group =>
        (group,
         set_groupObjects
           (alter (λ g, mkGroup (groupId g) info) group (groupObjects this)) this,
         [])
    | None =>
        (length (groupObjects this),
         set_groupObjects (groupObjects this ++ [mkGroup id info])
           (set_hash groups (<[id := length (groupObjects this)]> (hash groups this)) this),
         [])
    end.
Proof.
  unfold updateGroup, assign_groupInfo, new_Group, mbind, M_bind, bind, get_this, modify,
    mret, M_ret, ret.
  destruct (hash groups this !! id) as [group|] eqn:Hid; [done|].
  destruct groups; cbn; by rewrite alter_new_object.
Qed.

Lemma handleBasicGroupUpdated_exec id info this :
  exec (handleBasicGroupUpdated id info) this = exec (updateGroup id info BasicGroups) this.
Proof.
  unfold handleBasicGroupUpdated. rewrite exec_bind.
  generalize (result (updateGroup id info BasicGroups) this).
  by generalize (exec (updateGroup id info BasicGroups) this).
Qed.

Lemma handleSuperGroupUpdated_exec id info this :
  exec (handleSuperGroupUpdated id info) this = exec (updateGroup id info SuperGroups) this.
Proof.
  unfold handleSuperGroupUpdated. rewrite exec_bind.
  generalize (result (updateGroup id info SuperGroups) this).
  by generalize (exec (updateGroup id info SuperGroups) this).
Qed.

Lemma updateGroup_registers id info groups this :
  is_Some (hash groups (exec (updateGroup id info groups) this) !! id).
Proof.
  unfold exec. rewrite updateGroup_run.
  destruct (hash groups this !! id) as [group|] eqn:Hid; cbn.
  - exists group. by destruct groups.
  - exists (length (groupObjects this)). destruct groups; cbn; by rewrite lookup_insert_eq.
Qed.

(** C6: [getGroup(0)] is null whatever the two hashes hold; in
    particular it is null right after a super group or a basic group
    has been registered under id 0. *)
Theorem getGroup_zero (this : TDLibWrapper) :
  getGroup this 0 = None
  ∧ (∀ info,
       let registered := exec (handleSuperGroupUpdated 0 info) this in
       is_Some (superGroups registered !! 0%Z) ∧ getGroup registered 0 = None)
  ∧ (∀ info,
       let registered := exec (handleBasicGroupUpdated 0 info) this in
       is_Some (basicGroups registered !! 0%Z) ∧ getGroup registered 0 = None).
Proof.
  split; [reflexivity|]. split; intros info registered; subst registered.
  - rewrite handleSuperGroupUpdated_exec. split; [|reflexivity].
    apply (updateGroup_registers 0 info SuperGroups).
  - rewrite handleBasicGroupUpdated_exec. split; [|reflexivity].
    apply (updateGroup_registers 0 info BasicGroups).
Qed.

Lemma registry_wf_proper this this' :
  registry this' = registry this → registry_wf this → registry_wf this'.
Proof.
  unfold registry, registry_wf. intros [= Hb Hs Ho] [Hlive Hdisjoint].
  rewrite Ho, Hb, Hs. split; [|done].
  intros groups id group. specialize (Hlive groups id group).
  destruct groups; cbn in *; by rewrite ?Hb, ?Hs.
Qed.

Lemma registry_wf_constructed a c : registry_wf (constructed a c).
Proof.
  split.
  - intros [] id group; cbn; by rewrite lookup_empty.
  - intros id1 id2 group; cbn; by rewrite lookup_empty.
Qed.

Lemma registry_wf_updateGroup id info groups this :
  registry_wf this → registry_wf (exec (updateGroup id info groups) this).
Proof.
  intros [Hlive Hdisjoint]. unfold exec. rewrite updateGroup_run.
  destruct (hash groups this !! id) as [group|] eqn:Hid; cbn.
  - split.
    + intros groups' id' group' Hgroup'.
      assert (hash groups' this !! id' = Some group') as Hold
        by (by destruct groups').
      destruct (Hlive _ _ _ Hold) as (g & Hg & Hgid).
      cbn. destruct (decide (group = group')) as [->|Hne].
      * exists (mkGroup (groupId g) info).
        by rewrite list_lookup_alter_eq, Hg.
      * exists g. by rewrite list_lookup_alter_ne.
    + intros id1 id2 group'. cbn. apply Hdisjoint.
  - assert (∀ groups' id' group',
              hash groups' this !! id' = Some group' →
              group' < length (groupObjects this)) as Hbound.
    { intros groups' id' group' Hold.
      destruct (Hlive _ _ _ Hold) as (g & Hg & _). by eapply lookup_lt_Some. }
    split.
    + intros groups' id' group' Hgroup'. cbn.
      assert ((groups' = groups ∧ id' = id ∧ group' = length (groupObjects this))
              ∨ hash groups' this !! id' = Some group') as [(-> & -> & ->)|Hold].
      { destruct groups, groups'; cbn in *;
          try (by right);
          (apply lookup_insert_Some in Hgroup' as [[<- <-]|[_ Hold]];
             [by left|by right]). }
      * exists (mkGroup id info). split; [|done].
        rewrite lookup_app_r by lia. by rewrite Nat.sub_diag.
      * destruct (Hlive _ _ _ Hold) as (g & Hg & Hgid).
        exists g. split; [|done]. by apply lookup_app_l_Some.
    + intros id1 id2 group' Hsuper Hbasic.
      destruct groups; cbn in *.
      * apply lookup_insert_Some in Hbasic as [[<- <-]|[_ Hbasic]].
        -- pose proof (Hbound SuperGroups _ _ Hsuper). lia.
        -- by eapply Hdisjoint.
      * apply lookup_insert_Some in Hsuper as [[<- <-]|[_ Hsuper]].
        -- pose proof (Hbound BasicGroups _ _ Hbasic). lia.
        -- by eapply Hdisjoint.
Qed.

Lemma deliver_registry env u this :
  registry (exec (deliver env u) this)
  = match u with
    | UBasicGroupUpdated id info => registry (exec (updateGroup id info BasicGroups) this)
    | USuperGroupUpdated id info => registry (exec (updateGroup id info SuperGroups) this)
    | _ => registry this
    end.
Proof.
  destruct u; cbn [deliver].
  - by apply handleVersionDetected_preserves.
  - by apply handleAuthorizationStateChanged_preserves.
  - by apply handleOptionUpdated_preserves.
  - by apply handleConnectionStateChanged_preserves.
  - rewrite handleUserUpdated_exec. by destruct (String.eqb _ _).
  - rewrite handleUserStatusUpdated_exec. by destruct (String.eqb _ _).
  - by apply handleNewChatDiscovered_preserves.
  - by apply handleUnreadMessageCountUpdated_preserves.
  - by apply handleUnreadChatCountUpdated_preserves.
  - by rewrite handleBasicGroupUpdated_exec.
  - by rewrite handleSuperGroupUpdated_exec.
Qed.

Lemma registry_wf_deliver env u this :
  registry_wf this → registry_wf (exec (deliver env u) this).
Proof.
  intros Hwf. pose proof (deliver_registry env u this) as Hregistry.
  destruct u;
    try (by apply (registry_wf_proper this));
    (eapply registry_wf_proper; [exact Hregistry|by apply registry_wf_updateGroup]).
Qed.

(** Every state the update stream can lead to from the constructed
    wrapper has a well-formed registry. *)
Lemma registry_wf_deliver_all env us this :
  registry_wf this → registry_wf (exec (deliver_all env us) this).
Proof.
  revert this. induction us as [|u us IH]; intros this Hwf; [done|].
  rewrite deliver_all_cons. by apply IH, registry_wf_deliver.
Qed.

(** C5: for a nonzero id, [getGroup] returns the pointer filed in the
    super-group hash when there is one, also when the basic-group hash
    has the id as well (in a well-formed registry that is another
    object), and the pointer of the basic-group hash when the super-group
    hash lacks the id. *)
Theorem getGroup_super_first (this : TDLibWrapper) (id : Z) :
  id ≠ 0%Z →
  (∀ super,
     superGroups this !! id = Some super →
     getGroup this id = Some super
     ∧ (registry_wf this → basicGroups this !! id ≠ Some super))
  ∧ (superGroups this !! id = None →
     getGroup this id = basicGroups this !! id).
Proof.
  intros Hid. unfold getGroup.
  apply Z.eqb_neq in Hid. rewrite Hid. split.
  - intros super Hsuper. rewrite Hsuper. split; [done|].
    intros [_ Hdisjoint] Hbasic. by eapply Hdisjoint.
  - by intros ->.
Qed.

Lemma getGroup_super_first_witness :
  let env := mkEnvironment (VInt 1) (VString "hash") "/data" "en_GB" "Phone" "Sailfish" in
  let basic : QVariantMap := <["member_count" := VInt 3]> ∅ in
  let super : QVariantMap := <["username" := VString "team"]> ∅ in
  let both :=
    exec (deliver_all env [UBasicGroupUpdated 7 basic; USuperGroupUpdated 7 super])
      (constructed Closed Connecting) in
  let only_basic :=
    exec (deliver_all env [UBasicGroupUpdated 7 basic]) (constructed Closed Connecting) in
  (getGroup both 7 = Some 1
   ∧ groupObjects both !! 1 = Some (mkGroup 7 super)
   ∧ basicGroups both !! 7%Z ≠ Some 1)
  ∧ getGroup only_basic 7 = Some 0
  ∧ groupObjects only_basic !! 0 = Some (mkGroup 7 basic).
Proof.
  intros env basic super both only_basic.
  assert (7 ≠ 0)%Z as Hid by discriminate.
  split; [|split].
  - destruct (proj1 (getGroup_super_first both 7 Hid) 1) as [Hget Hdistinct].
    + vm_compute. reflexivity.
    + split; [exact Hget|]. split; [vm_compute; reflexivity|].
      apply Hdistinct. apply registry_wf_deliver_all, registry_wf_constructed.
  - rewrite (proj2 (getGroup_super_first only_basic 7 Hid)).
    + vm_compute. reflexivity.
    + vm_compute. reflexivity.
  - vm_compute. reflexivity.
Defined.

(** ** Commands *)

(** X1: [getMapThumbnailFile] asks for a thumbnail whose width and height
    lie between 16 and 1024: a dimension in that range is passed on as it
    is, a smaller one becomes 16 and a larger one 1024. *)
Theorem getMapThumbnailFile_bounds
    (chatId : string) (latitude longitude : QVariant) (width height : Z) (this : TDLibWrapper) :
  ∃ request boundsWidth boundsHeight,
    effects (getMapThumbnailFile chatId latitude longitude width height) this = [Sent request]
    ∧ request !! "width" = Some (VInt boundsWidth)
    ∧ request !! "height" = Some (VInt boundsHeight)
    ∧ (16 ≤ boundsWidth ≤ 1024)%Z
    ∧ (16 ≤ boundsHeight ≤ 1024)%Z
    ∧ ((16 ≤ width ≤ 1024)%Z → boundsWidth = width)
    ∧ ((16 ≤ height ≤ 1024)%Z → boundsHeight = height)
    ∧ ((width < 16)%Z → boundsWidth = 16%Z)
    ∧ ((1024 < width)%Z → boundsWidth = 1024%Z)
    ∧ ((height < 16)%Z → boundsHeight = 16%Z)
    ∧ ((1024 < height)%Z → boundsHeight = 1024%Z).
Proof.
  exists (getMapThumbnailFile_request chatId latitude longitude width height),
    (Z.min (Z.max width 16) 1024), (Z.min (Z.max height 16) 1024).
  split; [reflexivity|]. split; [reflexivity|]. split; [reflexivity|].
  repeat split; lia.
Qed.

Lemma getMapThumbnailFile_bounds_witness :
  ∃ request,
    effects (getMapThumbnailFile "100" (VInt 52) (VInt 13) 5000 (-3))
      (constructed Closed Connecting) = [Sent request]
    ∧ request !! "width" = Some (VInt 1024)
    ∧ request !! "height" = Some (VInt 16).
Proof.
  destruct (getMapThumbnailFile_bounds "100" (VInt 52) (VInt 13) 5000 (-3)
              (constructed Closed Connecting))
    as (request & w & h & Hsent & Hw & Hh & _ & _ & _ & _ & _ & Hlarge & Hsmall & _).
  exists request. split; [exact Hsent|].
  rewrite Hw, Hh, Hlarge, Hsmall by lia. split; reflexivity.
Defined.

(** X2: the four [send...Message] commands put [reply_to_message_id] in
    the request exactly when the reply id they are given is not ["0"],
    and then with that id; the chat id is always carried. *)
Theorem send_message_reply_reference (chatId filePath message replyToMessageId : string) :
  let expected :=
    if String.eqb replyToMessageId "0" then None else Some (VString replyToMessageId) in
  (sendTextMessage_request chatId message replyToMessageId !! "reply_to_message_id" = expected
   ∧ sendPhotoMessage_request chatId filePath message replyToMessageId
       !! "reply_to_message_id" = expected
   ∧ sendVideoMessage_request chatId filePath message replyToMessageId
       !! "reply_to_message_id" = expected
   ∧ sendDocumentMessage_request chatId filePath message replyToMessageId
       !! "reply_to_message_id" = expected)
  ∧ (sendTextMessage_request chatId message replyToMessageId !! "chat_id"
     = Some (VString chatId)
     ∧ sendPhotoMessage_request chatId filePath message replyToMessageId !! "chat_id"
       = Some (VString chatId)
     ∧ sendVideoMessage_request chatId filePath message replyToMessageId !! "chat_id"
       = Some (VString chatId)
     ∧ sendDocumentMessage_request chatId filePath message replyToMessageId !! "chat_id"
       = Some (VString chatId)).
Proof.
  unfold sendTextMessage_request, sendPhotoMessage_request, sendVideoMessage_request,
    sendDocumentMessage_request.
  destruct (String.eqb replyToMessageId "0"); cbn [negb]; repeat split; reflexivity.
Qed.

(** X3: every command leaves the wrapper as it is and emits no signal:
    all it does is send one request, and that request names its type
    under [@type]. *)
Theorem perform_sends_one_request (c : Command) (this : TDLibWrapper) :
  exec (perform c) this = this
  ∧ ∃ request name,
      effects (perform c) this = [Sent request]
      ∧ request !! "@type" = Some (VString name)
      ∧ name ≠ "".
Proof.
  split; [by destruct c|].
  destruct c; cbn [perform];
    try (eexists _, _; split; [reflexivity|]; split; [reflexivity|discriminate]).
  - unfold sendTextMessage, sendTextMessage_request.
    destruct (String.eqb replyToMessageId "0"); cbn [negb];
      (eexists _, _; split; [reflexivity|]; split; [reflexivity|discriminate]).
  - unfold sendPhotoMessage, sendPhotoMessage_request.
    destruct (String.eqb replyToMessageId "0"); cbn [negb];
      (eexists _, _; split; [reflexivity|]; split; [reflexivity|discriminate]).
  - unfold sendVideoMessage, sendVideoMessage_request.
    destruct (String.eqb replyToMessageId "0"); cbn [negb];
      (eexists _, _; split; [reflexivity|]; split; [reflexivity|discriminate]).
  - unfold sendDocumentMessage, sendDocumentMessage_request.
    destruct (String.eqb replyToMessageId "0"); cbn [negb];
      (eexists _, _; split; [reflexivity|]; split; [reflexivity|discriminate]).
Qed.

(** X4: the text of a message and the path of a local file can be read
    back from the request: a text message has its text under
    [input_message_content.text.text], a photo, video or document message
    has its caption under [input_message_content.caption.text] and its
    file under [input_message_content.<kind>.path], whatever the reply
    id.  [editMessageText] carries the new text at the same place as
    [sendTextMessage], but without a [@type] in the formatted text. *)
Theorem message_content_round_trip
    (chatId filePath message replyToMessageId messageId : string) :
  string_at ["input_message_content"; "text"; "text"]
    (sendTextMessage_request chatId message replyToMessageId) = message
  ∧ string_at ["input_message_content"; "caption"; "text"]
      (sendPhotoMessage_request chatId filePath message replyToMessageId) = message
  ∧ string_at ["input_message_content"; "photo"; "path"]
      (sendPhotoMessage_request chatId filePath message replyToMessageId) = filePath
  ∧ string_at ["input_message_content"; "caption"; "text"]
      (sendVideoMessage_request chatId filePath message replyToMessageId) = message
  ∧ string_at ["input_message_content"; "video"; "path"]
      (sendVideoMessage_request chatId filePath message replyToMessageId) = filePath
  ∧ string_at ["input_message_content"; "caption"; "text"]
      (sendDocumentMessage_request chatId filePath message replyToMessageId) = message
  ∧ string_at ["input_message_content"; "document"; "path"]
      (sendDocumentMessage_request chatId filePath message replyToMessageId) = filePath
  ∧ string_at ["input_message_content"; "text"; "text"]
      (editMessageText_request chatId messageId message) = message
  ∧ string_at ["input_message_content"; "text"; "@type"]
      (sendTextMessage_request chatId message replyToMessageId) = "formattedText"
  ∧ string_at ["input_message_content"; "text"; "@type"]
      (editMessageText_request chatId messageId message) = "".
Proof.
  unfold sendTextMessage_request, sendPhotoMessage_request, sendVideoMessage_request,
    sendDocumentMessage_request.
  destruct (String.eqb replyToMessageId "0"); cbn [negb]; repeat split; reflexivity.
Qed.

(** ** Group updates: read-back, frame and identity *)

Lemma updateGroup_object_in id info groups this groups' id' :
  registry_wf this →
  object_in groups' (exec (updateGroup id info groups) this) id'
  = if decide (groups' = groups ∧ id' = id)
    then Some (mkGroup id info)
    else object_in groups' this id'.
Proof.
  intros [Hlive Hdisjoint]. unfold object_in, exec. rewrite updateGroup_run.
  destruct (hash groups this !! id) as [group|] eqn:Hid; cbn.
  - replace (hash groups'
               (set_groupObjects
                  (alter (λ g, mkGroup (groupId g) info) group (groupObjects this)) this))
      with (hash groups' this) by (by destruct groups').
    destruct (Hlive _ _ _ Hid) as (g & Hg & Hgid).
    case_decide as Hsame.
    + destruct Hsame as [-> ->]. rewrite Hid; cbn.
      by rewrite list_lookup_alter_eq, Hg, <- Hgid.
    + destruct (hash groups' this !! id') as [group'|] eqn:Hid'; cbn; [|done].
      destruct (decide (group = group')) as [<-|Hne]; [|by rewrite list_lookup_alter_ne].
      destruct (Hlive _ _ _ Hid') as (g' & Hg' & Hgid').
      exfalso. apply Hsame. split; [|congruence].
      destruct groups, groups'; try done; exfalso; by eapply Hdisjoint.
  - case_decide as Hsame.
    + destruct Hsame as [-> ->].
      replace (hash groups
                 (set_groupObjects (groupObjects this ++ [mkGroup id info])
                    (set_hash groups (<[id:=length (groupObjects this)]> (hash groups this))
                       this)) !! id)
        with (Some (length (groupObjects this)))
        by (destruct groups; cbn; by rewrite lookup_insert_eq).
      cbn. rewrite lookup_app_r by lia. by rewrite Nat.sub_diag.
    + replace (hash groups'
                 (set_groupObjects (groupObjects this ++ [mkGroup id info])
                    (set_hash groups (<[id:=length (groupObjects this)]> (hash groups this))
                       this)) !! id')
        with (hash groups' this !! id').
      2:{ destruct groups, groups'; cbn; try done;
            (rewrite lookup_insert_ne; [done|]); intros <-; by apply Hsame. }
      destruct (hash groups' this !! id') as [group'|] eqn:Hid'; cbn; [|done].
      destruct (Hlive _ _ _ Hid') as (g' & Hg' & _).
      by rewrite (lookup_app_l_Some _ _ _ _ Hg').
Qed.

Lemma getBasicGroup_object_in this id :
  getBasicGroup this id = default ∅ (groupInfo <$> object_in BasicGroups this id).
Proof. unfold getBasicGroup, object_in; cbn. by destruct (_ ≫= _). Qed.

Lemma getSuperGroup_object_in this id :
  getSuperGroup this id = default ∅ (groupInfo <$> object_in SuperGroups this id).
Proof. unfold getSuperGroup, object_in; cbn. by destruct (_ ≫= _). Qed.

(** X5: in a well-formed registry, the metadata of a group update can
    be read back: after [handleBasicGroupUpdated id info],
    [getBasicGroup id] is [info], and likewise for super groups, whether
    the id was known before or not. *)
Theorem group_update_read_back (id : Z) (info : QVariantMap) (this : TDLibWrapper) :
  registry_wf this →
  getBasicGroup (exec (handleBasicGroupUpdated id info) this) id = info
  ∧ getSuperGroup (exec (handleSuperGroupUpdated id info) this) id = info.
Proof.
  intros Hwf.
  rewrite getBasicGroup_object_in, getSuperGroup_object_in.
  rewrite handleBasicGroupUpdated_exec, handleSuperGroupUpdated_exec.
  rewrite !updateGroup_object_in by done.
  by rewrite !decide_True.
Qed.

Lemma group_update_read_back_witness :
  let first : QVariantMap := <["member_count" := VInt 3]> ∅ in
  let second : QVariantMap := <["member_count" := VInt 4]> ∅ in
  let this := exec (handleBasicGroupUpdated 7 first) (constructed Closed Connecting) in
  getBasicGroup (exec (handleBasicGroupUpdated 7 second) this) 7 = second
  ∧ getSuperGroup (exec (handleSuperGroupUpdated 7 second) this) 7 = second.
Proof.
  intros first second this.
  apply (group_update_read_back 7 second this).
  apply (registry_wf_deliver (mkEnvironment Invalid Invalid "" "" "" "")
           (UBasicGroupUpdated 7 first)), registry_wf_constructed.
Defined.

(** X6: in a well-formed registry, a group update changes what is read
    for its own id in its own hash only: a basic-group update leaves
    every [getSuperGroup] and the [getBasicGroup] of every other id as
    they were, and a super-group update leaves every [getBasicGroup] and
    the [getSuperGroup] of every other id as they were. *)
Theorem group_update_frame (id other : Z) (info : QVariantMap) (this : TDLibWrapper) :
  registry_wf this →
  getSuperGroup (exec (handleBasicGroupUpdated id info) this) other
  = getSuperGroup this other
  ∧ getBasicGroup (exec (handleSuperGroupUpdated id info) this) other
    = getBasicGroup this other
  ∧ (other ≠ id →
     getBasicGroup (exec (handleBasicGroupUpdated id info) this) other
     = getBasicGroup this other
     ∧ getSuperGroup (exec (handleSuperGroupUpdated id info) this) other
       = getSuperGroup this other).
Proof.
  intros Hwf.
  rewrite !getBasicGroup_object_in, !getSuperGroup_object_in.
  rewrite handleBasicGroupUpdated_exec, handleSuperGroupUpdated_exec.
  rewrite !updateGroup_object_in by done.
  split; [|split].
  - by rewrite decide_False by (by intros [? _]).
  - by rewrite decide_False by (by intros [? _]).
  - intros Hother. by rewrite !decide_False by (by intros [_ ?]).
Qed.

Lemma group_update_frame_witness :
  let basic : QVariantMap := <["member_count" := VInt 3]> ∅ in
  let super : QVariantMap := <["username" := VString "team"]> ∅ in
  let this := exec (handleSuperGroupUpdated 7 super) (constructed Closed Connecting) in
  getSuperGroup (exec (handleBasicGroupUpdated 7 basic) this) 7 = super
  ∧ getSuperGroup (exec (handleSuperGroupUpdated 8 basic) this) 7 = super.
Proof.
  intros basic super this.
  assert (registry_wf this) as Hwf.
  { apply (registry_wf_deliver (mkEnvironment Invalid Invalid "" "" "" "")
             (USuperGroupUpdated 7 super)), registry_wf_constructed. }
  split.
  - rewrite (proj1 (group_update_frame 7 7 basic this Hwf)). vm_compute. reflexivity.
  - destruct (proj2 (proj2 (group_update_frame 8 7 basic this Hwf))) as [_ Hsuper];
      [discriminate|].
    rewrite Hsuper. vm_compute. reflexivity.
Defined.

Lemma updateGroup_keeps_entries id info groups this groups' id' group :
  hash groups' this !! id' = Some group →
  hash groups' (exec (updateGroup id info groups) this) !! id' = Some group.
Proof.
  intros Hentry. unfold exec. rewrite updateGroup_run.
  destruct (hash groups this !! id) as [known|] eqn:Hid; cbn.
  - by destruct groups'.
  - destruct groups, groups'; cbn in *; try done;
      (rewrite lookup_insert_ne; [done|]); intros <-; congruence.
Qed.

Lemma updateGroup_keeps_objects id info groups this group g :
  groupObjects this !! group = Some g →
  ∃ g', groupObjects (exec (updateGroup id info groups) this) !! group = Some g'
        ∧ groupId g' = groupId g.
Proof.
  intros Hg. unfold exec. rewrite updateGroup_run.
  destruct (hash groups this !! id) as [known|] eqn:Hid; cbn.
  - destruct (decide (known = group)) as [->|Hne].
    + exists (mkGroup (groupId g) info). by rewrite list_lookup_alter_eq, Hg.
    + exists g. by rewrite list_lookup_alter_ne.
  - exists g. split; [|done]. by apply lookup_app_l_Some.
Qed.

Lemma deliver_keeps_group env u this groups id group g :
  hash groups this !! id = Some group →
  groupObjects this !! group = Some g →
  hash groups (exec (deliver env u) this) !! id = Some group
  ∧ ∃ g', groupObjects (exec (deliver env u) this) !! group = Some g'
          ∧ groupId g' = groupId g.
Proof.
  intros Hentry Hg. pose proof (deliver_registry env u this) as Hregistry.
  assert (∀ this', registry this' = registry this →
            hash groups this' !! id = Some group
            ∧ ∃ g', groupObjects this' !! group = Some g' ∧ groupId g' = groupId g)
    as Hsame.
  { unfold registry. intros this' [= Hb Hs Ho]. rewrite Ho. split; [|by exists g].
    destruct groups; cbn in *; congruence. }
  assert (∀ i info gr,
            registry (exec (deliver env u) this) = registry (exec (updateGroup i info gr) this) →
            hash groups (exec (deliver env u) this) !! id = Some group
            ∧ ∃ g', groupObjects (exec (deliver env u) this) !! group = Some g'
                    ∧ groupId g' = groupId g)
    as Hupdate.
  { unfold registry. intros i info gr [= Hb Hs Ho]. rewrite Ho. split.
    - pose proof (updateGroup_keeps_entries i info gr this groups id group Hentry).
      destruct groups; cbn in *; congruence.
    - by apply updateGroup_keeps_objects. }
  destruct u; try (by apply Hsame); by eapply Hupdate.
Qed.

(** X7: group objects are identity-stable.  Whatever updates arrive, an
    id that a hash files under an object stays filed under that same
    object, the object stays alive, and it keeps the id it was created
    with; only its metadata changes. *)
Theorem group_identity_stable
    (env : Environment) (us : list Update) (this : TDLibWrapper)
    (groups : GroupHash) (id : Z) (group : GroupPtr) (g : Group) :
  hash groups this !! id = Some group →
  groupObjects this !! group = Some g →
  hash groups (exec (deliver_all env us) this) !! id = Some group
  ∧ ∃ g', groupObjects (exec (deliver_all env us) this) !! group = Some g'
          ∧ groupId g' = groupId g.
Proof.
  revert this g. induction us as [|u us IH]; intros this g Hentry Hg.
  - split; [done|by exists g].
  - rewrite deliver_all_cons.
    destruct (deliver_keeps_group env u this groups id group g Hentry Hg)
      as (Hentry' & g' & Hg' & Hid').
    destruct (IH _ _ Hentry' Hg') as (Hfinal & g'' & Hg'' & Hid'').
    split; [done|]. exists g''. split; [done|congruence].
Qed.

Lemma group_identity_stable_witness :
  let env := mkEnvironment (VInt 1) (VString "hash") "/data" "en_GB" "Phone" "Sailfish" in
  let first : QVariantMap := <["member_count" := VInt 3]> ∅ in
  let second : QVariantMap := <["member_count" := VInt 4]> ∅ in
  let this := exec (handleBasicGroupUpdated 7 first) (constructed Closed Connecting) in
  let later :=
    exec (deliver_all env
            [USuperGroupUpdated 7 first; UBasicGroupUpdated 8 first;
             UBasicGroupUpdated 7 second]) this in
  basicGroups later !! 7%Z = Some 0
  ∧ ∃ g', groupObjects later !! 0 = Some g' ∧ groupId g' = 7%Z.
Proof.
  intros env first second this later.
  apply (group_identity_stable env
           [USuperGroupUpdated 7 first; UBasicGroupUpdated 8 first;
            UBasicGroupUpdated 7 second]
           this BasicGroups 7 0 (mkGroup 7 first)).
  - vm_compute. reflexivity.
  - vm_compute. reflexivity.
Defined.

(** X8: in a well-formed registry, the signal of a group update carries
    the id of the update (it is read from the object, which has the id it
    is filed under), and it is the only effect. *)
Theorem group_update_signal (id : Z) (info : QVariantMap) (this : TDLibWrapper) :
  registry_wf this →
  effects (handleBasicGroupUpdated id info) this = [Emitted (basicGroupUpdated id)]
  ∧ effects (handleSuperGroupUpdated id info) this = [Emitted (superGroupUpdated id)].
Proof.
  intros Hwf.
  assert (∀ groups,
            let r := updateGroup id info groups this in
            r.2 = []
            ∧ (groupId <$> groupObjects r.1.2 !! r.1.1) = Some id) as Hobject.
  { intros groups r. subst r.
    pose proof (updateGroup_object_in id info groups this groups id Hwf) as Hin.
    rewrite decide_True in Hin by done.
    unfold object_in, exec in Hin. rewrite updateGroup_run in Hin |- *.
    destruct Hwf as [Hlive _].
    destruct (hash groups this !! id) as [group|] eqn:Hid; cbn in *.
    - split; [done|].
      replace (hash groups
                 (set_groupObjects
                    (alter (λ g, mkGroup (groupId g) info) group (groupObjects this)) this)
               !! id) with (Some group) in Hin by (by destruct groups; cbn).
      cbn in Hin. by rewrite Hin.
    - split; [done|]. rewrite lookup_app_r by lia. by rewrite Nat.sub_diag. }
  unfold handleBasicGroupUpdated, handleSuperGroupUpdated, groupId_at, effects,
    mbind, M_bind, bind, get_this, mret, M_ret, ret, emit.
  split.
  - destruct (Hobject BasicGroups) as [Htrace Hid]. cbn zeta in Htrace, Hid.
    destruct (updateGroup id info BasicGroups this) as [[group this'] trace].
    cbn in *. by rewrite Htrace, Hid.
  - destruct (Hobject SuperGroups) as [Htrace Hid]. cbn zeta in Htrace, Hid.
    destruct (updateGroup id info SuperGroups this) as [[group this'] trace].
    cbn in *. by rewrite Htrace, Hid.
Qed.

Lemma group_update_signal_witness :
  let info : QVariantMap := <["member_count" := VInt 3]> ∅ in
  let this := exec (handleBasicGroupUpdated 7 info) (constructed Closed Connecting) in
  effects (handleBasicGroupUpdated 7 info) this = [Emitted (basicGroupUpdated 7)]
  ∧ effects (handleSuperGroupUpdated 7 info) this = [Emitted (superGroupUpdated 7)].
Proof.
  intros info this.
  apply (group_update_signal 7 info this).
  apply (registry_wf_deliver (mkEnvironment Invalid Invalid "" "" "" "")
           (UBasicGroupUpdated 7 info)), registry_wf_constructed.
Defined.

(** X9: every state that a stream of updates leads to from the
    constructed wrapper has a well-formed registry: each pointer of the
    two hashes is the address of a live object that carries the id it is
    filed under, and no object is filed in both hashes. *)
Theorem registry_wf_reachable
    (env : Environment) (us : list Update) (a : AuthorizationState) (c : ConnectionState) :
  registry_wf (exec (deliver_all env us) (constructed a c)).
Proof. apply registry_wf_deliver_all, registry_wf_constructed. Qed.

(** X10: in a well-formed registry and for a nonzero id, [getGroup]
    finds the group right after its update: after a super-group update
    it returns an object that holds the id and the metadata of the
    update, and after a basic-group update it does so when the id is not
    a super group. *)
Theorem getGroup_after_update (id : Z) (info : QVariantMap) (this : TDLibWrapper) :
  id ≠ 0%Z →
  registry_wf this →
  (∃ group,
     getGroup (exec (handleSuperGroupUpdated id info) this) id = Some group
     ∧ groupObjects (exec (handleSuperGroupUpdated id info) this) !! group
       = Some (mkGroup id info))
  ∧ (superGroups this !! id = None →
     ∃ group,
       getGroup (exec (handleBasicGroupUpdated id info) this) id = Some group
       ∧ groupObjects (exec (handleBasicGroupUpdated id info) this) !! group
         = Some (mkGroup id info)).
Proof.
  intros Hid Hwf. apply Z.eqb_neq in Hid. unfold getGroup. rewrite Hid.
  rewrite handleSuperGroupUpdated_exec, handleBasicGroupUpdated_exec.
  split.
  - pose proof (updateGroup_object_in id info SuperGroups this SuperGroups id Hwf) as Hin.
    rewrite decide_True in Hin by done. unfold object_in in Hin. cbn [hash] in Hin.
    destruct (superGroups (exec (updateGroup id info SuperGroups) this) !! id)
      as [group|]; [|done].
    by exists group.
  - intros Hnone.
    pose proof (updateGroup_object_in id info BasicGroups this BasicGroups id Hwf) as Hin.
    rewrite decide_True in Hin by done. unfold object_in in Hin. cbn [hash] in Hin.
    replace (superGroups (exec (updateGroup id info BasicGroups) this) !! id)
      with (@None GroupPtr).
    2:{ symmetry. unfold exec. rewrite updateGroup_run. cbn [hash].
        by destruct (basicGroups this !! id). }
    destruct (basicGroups (exec (updateGroup id info BasicGroups) this) !! id)
      as [group|]; [|done].
    by exists group.
Qed.

Lemma getGroup_after_update_witness :
  let info : QVariantMap :=
    <["status" := VMap (<["@type" := VString "chatMemberStatusCreator"]> ∅)]> ∅ in
  let this := constructed Closed Connecting in
  (∃ group,
     getGroup (exec (handleSuperGroupUpdated 7 info) this) 7 = Some group
     ∧ groupObjects (exec (handleSuperGroupUpdated 7 info) this) !! group
       = Some (mkGroup 7 info))
  ∧ ∃ group,
      getGroup (exec (handleBasicGroupUpdated 7 info) this) 7 = Some group
      ∧ groupObjects (exec (handleBasicGroupUpdated 7 info) this) !! group
        = Some (mkGroup 7 info).
Proof.
  intros info this.
  destruct (getGroup_after_update 7 info this) as [Hsuper Hbasic].
  - discriminate.
  - apply registry_wf_constructed.
  - split; [exact Hsuper|]. apply Hbasic. reflexivity.
Defined.

(** ** The stores over a stream of updates *)

(** Solves [f (exec handler this) = f this] for a handler that does not
    write what [f] reads. *)
Ltac handler_frame f :=
  first
    [ by apply (handleVersionDetected_preserves f)
    | by apply (handleAuthorizationStateChanged_preserves f)
    | by apply (handleOptionUpdated_preserves f)
    | by apply (handleConnectionStateChanged_preserves f)
    | by apply (handleNewChatDiscovered_preserves f)
    | by apply (handleUnreadMessageCountUpdated_preserves f)
    | by apply (handleUnreadChatCountUpdated_preserves f)
    | by apply (handleGroupUpdated_preserves f)
    | rewrite handleUserUpdated_exec; by destruct (String.eqb _ _)
    | rewrite handleUserStatusUpdated_exec; by destruct (String.eqb _ _) ].

Lemma deliver_chats env u this :
  chats (exec (deliver env u) this)
  = match u with
    | UNewChatDiscovered info =>
        <[toString (value info "id") := VMap info]> (chats this)
    | _ => chats this
    end.
Proof. destruct u; cbn [deliver]; try handler_frame chats. reflexivity. Qed.

Lemma deliver_options env u this :
  options (exec (deliver env u) this)
  = match u with
    | UOptionUpdated optionName optionValue => <[optionName := optionValue]> (options this)
    | _ => options this
    end.
Proof.
  destruct u; cbn [deliver]; try handler_frame options.
  by rewrite handleOptionUpdated_exec.
Qed.

Lemma deliver_keeps_keys env u this :
  dom (chats this) ⊆ dom (chats (exec (deliver env u) this))
  ∧ dom (allUsers this) ⊆ dom (allUsers (exec (deliver env u) this))
  ∧ dom (options this) ⊆ dom (options (exec (deliver env u) this)).
Proof.
  rewrite deliver_chats, deliver_options, deliver_allUsers.
  destruct u; try done.
  - rewrite dom_insert. set_solver.
  - rewrite handleUserUpdated_exec; cbn. rewrite dom_insert. set_solver.
  - rewrite handleUserStatusUpdated_exec; cbn. rewrite dom_insert. set_solver.
  - rewrite dom_insert. set_solver.
Qed.

(** X11: no update removes a chat, a user or an option: the keys of the
    three stores only grow along a stream of updates. *)
Theorem stores_only_grow (env : Environment) (us : list Update) (this : TDLibWrapper) :
  dom (chats this) ⊆ dom (chats (exec (deliver_all env us) this))
  ∧ dom (allUsers this) ⊆ dom (allUsers (exec (deliver_all env us) this))
  ∧ dom (options this) ⊆ dom (options (exec (deliver_all env us) this)).
Proof.
  revert this. induction us as [|u us IH]; intros this; [done|].
  rewrite deliver_all_cons.
  destruct (deliver_keeps_keys env u this) as (Hc & Hu & Ho).
  destruct (IH (exec (deliver env u) this)) as (Hc' & Hu' & Ho').
  repeat split; etrans; done.
Qed.

(** ** The own-user slot as a mirror of the user store *)

Lemma own_slot_mirrors_user_view this this' :
  user_view this' = user_view this → own_slot_mirrors this → own_slot_mirrors this'.
Proof.
  unfold user_view, own_slot_mirrors, getUserInformation, getUserInformation_of.
  intros [= Ho Hs Hu]. by rewrite Ho, Hs, Hu.
Qed.

Lemma own_slot_mirrors_handleUserUpdated info this :
  own_slot_mirrors this
  ∨ toString (value info "id") = toString (value (options this) "my_id") →
  own_slot_mirrors (exec (handleUserUpdated info) this).
Proof.
  intros Hmirrors. unfold own_slot_mirrors.
  rewrite handleUserUpdated_exec, getUserInformation_of_insert.
  destruct (String.eqb_spec (toString (value info "id"))
              (toString (value (options this) "my_id"))) as [Heq|Hne]; cbn.
  - by rewrite Heq, String.eqb_refl.
  - destruct Hmirrors as [Hmirrors|?]; [|done].
    apply String.eqb_neq in Hne. by rewrite Hne.
Qed.

Lemma own_slot_mirrors_handleUserStatusUpdated userId status this :
  own_slot_mirrors this →
  own_slot_mirrors (exec (handleUserStatusUpdated userId status) this).
Proof.
  intros Hmirrors. unfold own_slot_mirrors in *.
  rewrite handleUserStatusUpdated_exec, getUserInformation_of_insert.
  destruct (String.eqb_spec userId (toString (value (options this) "my_id")))
    as [Heq|Hne]; cbn.
  - rewrite <- Heq, String.eqb_refl.
    unfold getUserInformation in Hmirrors. rewrite Hmirrors, <- Heq. done.
  - apply String.eqb_neq in Hne. by rewrite Hne.
Qed.

Lemma own_slot_mirrors_deliver env u this :
  ¬ records_my_id u → own_slot_mirrors this → own_slot_mirrors (exec (deliver env u) this).
Proof.
  intros Hu Hmirrors.
  destruct u as [| |optionName optionValue| |info|userId status| | | | |]; cbn [deliver];
    try (apply (own_slot_mirrors_user_view this); [handler_frame user_view|done]).
  - cbn in Hu. unfold own_slot_mirrors in *.
    rewrite handleOptionUpdated_exec.
    unfold getUserInformation, getUserInformation_of, value in *; cbn.
    by rewrite lookup_insert_ne.
  - apply own_slot_mirrors_handleUserUpdated. by left.
  - by apply own_slot_mirrors_handleUserStatusUpdated.
Qed.

(** X12: the own-user slot mirrors the user store.  The slot equals the
    stored record of the user that [my_id] names when the wrapper is
    constructed, it does so after every full update for that user, and
    once it does it keeps doing so along any stream of updates in which
    [my_id] is not recorded again. *)
Theorem own_slot_mirrors_store :
  (∀ a c, own_slot_mirrors (constructed a c))
  ∧ (∀ info this,
       toString (value info "id") = toString (value (options this) "my_id") →
       own_slot_mirrors (exec (handleUserUpdated info) this))
  ∧ (∀ env us this,
       Forall (λ u, ¬ records_my_id u) us →
       own_slot_mirrors this →
       own_slot_mirrors (exec (deliver_all env us) this)).
Proof.
  split; [done|]. split.
  - intros info this Hid. apply own_slot_mirrors_handleUserUpdated. by right.
  - intros env us. induction us as [|u us IH]; intros this Hus Hmirrors; [done|].
    apply Forall_cons in Hus as [Hu Hus].
    rewrite deliver_all_cons. by apply IH, own_slot_mirrors_deliver.
Qed.

Lemma own_slot_mirrors_store_witness :
  let env := mkEnvironment (VInt 1) (VString "hash") "/data" "en_GB" "Phone" "Sailfish" in
  let info : QVariantMap := <["id" := VInt 42]> (<["first_name" := VString "Ada"]> ∅) in
  let online : QVariantMap := <["@type" := VString "userStatusOnline"]> ∅ in
  let this := exec (handleOptionUpdated "my_id" (VInt 42)) (constructed Closed Connecting) in
  let after :=
    exec (deliver_all env
            [UUserStatusUpdated "42" online; UOptionUpdated "version" (VString "1.6");
             UUserStatusUpdated "7" online])
      (exec (handleUserUpdated info) this) in
  getUserInformation after = getUserInformation_of after "42".
Proof.
  intros env info online this after.
  destruct own_slot_mirrors_store as (_ & Hfull & Hstream).
  apply (Hstream env
           [UUserStatusUpdated "42" online; UOptionUpdated "version" (VString "1.6");
            UUserStatusUpdated "7" online]
           (exec (handleUserUpdated info) this)).
  - apply Forall_cons; split; [intros []|].
    apply Forall_cons; split; [cbn; discriminate|].
    apply Forall_cons; split; [intros []|]. apply Forall_nil_2.
  - apply Hfull. vm_compute. reflexivity.
Defined.

(** X13: a status update for a user the store does not know creates a
    record that holds the status and nothing else, and the signal
    carries that record. *)
Theorem status_update_for_unknown_user
    (userId : string) (status : QVariantMap) (this : TDLibWrapper) :
  allUsers this !! userId = None →
  getUserInformation_of (exec (handleUserStatusUpdated userId status) this) userId
  = {["status" := VMap status]}
  ∧ effects (handleUserStatusUpdated userId status) this
    = [Emitted (userUpdated userId {["status" := VMap status]})].
Proof.
  intros Hunknown. split.
  - rewrite handleUserStatusUpdated_record, String.eqb_refl.
    unfold getUserInformation_of, value. by rewrite Hunknown.
  - unfold handleUserStatusUpdated, effects, when, mbind, M_bind, bind, get_this; cbn.
    destruct (String.eqb _ _); cbn; unfold value; by rewrite Hunknown.
Qed.

Lemma status_update_for_unknown_user_witness :
  let online : QVariantMap := <["@type" := VString "userStatusOnline"]> ∅ in
  getUserInformation_of
    (exec (handleUserStatusUpdated "42" online) (constructed Closed Connecting)) "42"
  = {["status" := VMap online]}.
Proof.
  intros online.
  apply (status_update_for_unknown_user "42" online (constructed Closed Connecting)).
  reflexivity.
Defined.

(** X14: a user update without an [id] field is filed under the empty
    id, and while the [my_id] option is unknown it also replaces the
    own-user slot; a chat without an [id] field is filed under the empty
    id as well. *)
Theorem update_without_id (info : QVariantMap) (this : TDLibWrapper) :
  info !! "id" = None →
  getUserInformation_of (exec (handleUserUpdated info) this) "" = info
  ∧ getChat (exec (handleNewChatDiscovered info) this) "" = info
  ∧ (options this !! "my_id" = None →
     getUserInformation (exec (handleUserUpdated info) this) = info).
Proof.
  intros Hid.
  assert (toString (value info "id") = "") as Hempty
    by (unfold value; by rewrite Hid).
  split; [|split].
  - rewrite <- Hempty. apply handleUserUpdated_record.
  - rewrite handleNewChatDiscovered_exec, Hempty. unfold getChat, value; cbn.
    by rewrite lookup_insert_eq.
  - intros Hunknown. rewrite handleUserUpdated_exec, Hempty.
    unfold value. by rewrite Hunknown.
Qed.

Lemma update_without_id_witness :
  let info : QVariantMap := <["first_name" := VString "Ada"]> ∅ in
  let this := constructed Closed Connecting in
  getUserInformation_of (exec (handleUserUpdated info) this) "" = info
  ∧ getUserInformation (exec (handleUserUpdated info) this) = info.
Proof.
  intros info this.
  destruct (update_without_id info this) as (Hstore & _ & Hown); [reflexivity|].
  split; [exact Hstore|]. apply Hown. reflexivity.
Defined.

(** ** Connection and authorization state *)

(** X15: [handleConnectionStateChanged] stores the enumerator of each
    of the five state strings it knows and changes nothing else; for any
    other string it changes nothing.  In both cases the signal carries
    the state that is stored afterwards. *)
Theorem handleConnectionStateChanged_table (s : string) (this : TDLibWrapper) :
  (∀ c, (s, c) ∈ connectionStateNames →
        exec (handleConnectionStateChanged s) this = set_connectionState c this
        ∧ getConnectionState (exec (handleConnectionStateChanged s) this) = c
        ∧ effects (handleConnectionStateChanged s) this
          = [Emitted (connectionStateChanged c)])
  ∧ (s ∉ connectionStateNames.*1 →
     exec (handleConnectionStateChanged s) this = this
     ∧ effects (handleConnectionStateChanged s) this
       = [Emitted (connectionStateChanged (getConnectionState this))]).
Proof.
  split.
  - intros c. unfold connectionStateNames. rewrite !elem_of_cons, elem_of_nil.
    intros H. repeat (destruct H as [H|H]; [by simplify_eq|]). done.
  - intros Hs. unfold handleConnectionStateChanged.
    rewrite !(eqb_name_outside s _ _ Hs) by (cbn; set_solver).
    done.
Qed.

Lemma handleConnectionStateChanged_table_witness :
  let this := constructed Closed Connecting in
  getConnectionState (exec (handleConnectionStateChanged "connectionStateReady") this)
  = ConnectionReady
  ∧ exec (handleConnectionStateChanged "connectionStateFrobnicated") this = this.
Proof.
  intros this. split.
  - apply (proj1 (handleConnectionStateChanged_table "connectionStateReady" this)).
    unfold connectionStateNames. rewrite !elem_of_cons. right; right; left. reflexivity.
  - apply (proj2 (handleConnectionStateChanged_table "connectionStateFrobnicated" this)).
    cbn. rewrite !not_elem_of_cons. repeat split; try discriminate. apply not_elem_of_nil.
Defined.

(** X16: for each of the eleven state strings it knows,
    [handleAuthorizationStateChanged] stores the enumerator of the
    string, changes nothing else, and ends by emitting the signal with
    that state.  It sends a request to TDLib, before the signal, for two
    states only: the empty database encryption key for
    [WaitEncryptionKey] and the initial parameters for
    [WaitTdlibParameters]. *)
Theorem handleAuthorizationStateChanged_table
    (env : Environment) (s : string) (a : AuthorizationState) (this : TDLibWrapper) :
  (s, a) ∈ authorizationStateTable →
  exec (handleAuthorizationStateChanged env s) this = set_authorizationState a this
  ∧ effects (handleAuthorizationStateChanged env s) this
    = match a with
      | WaitEncryptionKey => effects setEncryptionKey this
      | WaitTdlibParameters => effects (setInitialParameters env) this
      | _ => []
      end ++ [Emitted (authorizationStateChanged a)]
  ∧ (∃ request,
       effects setEncryptionKey this = [Sent request]
       ∧ request !! "@type" = Some (VString "checkDatabaseEncryptionKey")
       ∧ request !! "encryption_key" = Some (VString ""))
  ∧ (∃ request,
       effects (setInitialParameters env) this = [Sent request]
       ∧ request !! "@type" = Some (VString "setTdlibParameters")
       ∧ value (toMap (value request "parameters")) "api_id" = TDLIB_API_ID env
       ∧ value (toMap (value request "parameters")) "api_hash" = TDLIB_API_HASH env
       ∧ value (toMap (value request "parameters")) "use_secret_chats" = VBool false).
Proof.
  intros Hs. split; [|split; [|split]].
  - revert Hs. unfold authorizationStateTable. rewrite !elem_of_cons, elem_of_nil.
    intros H. repeat (destruct H as [H|H]; [by simplify_eq|]). done.
  - revert Hs. unfold authorizationStateTable. rewrite !elem_of_cons, elem_of_nil.
    intros H. repeat (destruct H as [H|H]; [by simplify_eq|]). done.
  - by eexists.
  - by eexists.
Qed.

Lemma handleAuthorizationStateChanged_table_witness :
  let env := mkEnvironment (VInt 1) (VString "hash") "/data" "en_GB" "Phone" "Sailfish" in
  let this := constructed Closed Connecting in
  getAuthorizationState
    (exec (handleAuthorizationStateChanged env "authorizationStateWaitPassword") this)
  = WaitPassword
  ∧ effects (handleAuthorizationStateChanged env "authorizationStateWaitPassword") this
    = [Emitted (authorizationStateChanged WaitPassword)].
Proof.
  intros env this.
  destruct (handleAuthorizationStateChanged_table env "authorizationStateWaitPassword"
              WaitPassword this) as (Hexec & Heffects & _).
  - unfold authorizationStateTable. rewrite !elem_of_cons. do 7 right. left. reflexivity.
  - split; [by rewrite Hexec|exact Heffects].
Defined.

(** ** Options *)

Lemma default_last_cons {A : Type} (x y : A) (l : list A) :
  default x (last (y :: l)) = default y (last l).
Proof.
  destruct l as [|z l]; [done|]. rewrite last_cons_cons.
  destruct (last (z :: l)) eqn:Hlast; [done|]. by apply last_None in Hlast.
Qed.

(** X17: options are last-write-wins.  After a sequence of
    [recordOption] calls an option has the value of the last call that
    named it, and the value it had before when no call named it. *)
Theorem recordOptions_last_write
    (calls : list (string * QVariant)) (optionName : string) (this : TDLibWrapper) :
  options (exec (recordOptions calls) this) !! optionName
  = match last (recorded optionName calls) with
    | Some optionValue => Some optionValue
    | None => options this !! optionName
    end.
Proof.
  revert this. induction calls as [|[name optionValue] calls IH]; intros this; [done|].
  cbn [recordOptions recorded]. rewrite exec_bind, IH, handleOptionUpdated_exec. cbn.
  destruct (String.eqb_spec name optionName) as [->|Hne].
  - rewrite lookup_insert_eq.
    destruct (recorded optionName calls) as [|v vs]; [done|].
    rewrite last_cons_cons.
    destruct (last (v :: vs)) eqn:Hlast; [done|]. by apply last_None in Hlast.
  - by rewrite lookup_insert_ne.
Qed.

(** ** Membership status, the other way round *)

(** X18: [chatMemberStatusFromString] gives a status other than
    [Unknown] only for the six strings of its table, matched exactly and
    with their case; so [chatMemberStatus] of a group is a known status
    only when the string under [status.@type] is one of them. *)
Theorem chatMemberStatus_known_only_from_table (group : Group) (e : ChatMemberStatus) :
  chatMemberStatus group = e →
  e ≠ ChatMemberStatusUnknown →
  (toString (value (toMap (value (groupInfo group) "status")) "@type"), e)
  ∈ chatMemberStatusNames.
Proof.
  unfold chatMemberStatus, STATUS, _TYPE.
  generalize (toString (value (toMap (value (groupInfo group) "status")) "@type")).
  intros s. destruct (isEmpty s); [congruence|].
  unfold chatMemberStatusFromString, chatMemberStatusNames.
  repeat match goal with
         | |- context [String.eqb s ?name] =>
             destruct (String.eqb_spec s name) as [->|_];
             [cbn; intros <- _; set_solver|]
         end.
  by intros <- ?.
Qed.

Lemma chatMemberStatus_known_only_from_table_witness :
  ("chatMemberStatusBanned", ChatMemberStatusBanned) ∈ chatMemberStatusNames.
Proof.
  assert (ChatMemberStatusBanned ≠ ChatMemberStatusUnknown) as Hknown by discriminate.
  exact (chatMemberStatus_known_only_from_table
           (mkGroup 7 (<["status" := VMap (<["@type" := VString "chatMemberStatusBanned"]> ∅)]> ∅))
           ChatMemberStatusBanned eq_refl Hknown).
Defined.

(** ** Unread counters over a stream *)

Lemma deliver_unreadMessageInformation env u this :
  unreadMessageInformation (exec (deliver env u) this)
  = match u with
    | UUnreadMessageCountUpdated info =>
        if String.eqb (toString (value info "chat_list_type")) "chatListMain"
        then info else unreadMessageInformation this
    | _ => unreadMessageInformation this
    end.
Proof.
  destruct u; cbn [deliver]; try handler_frame unreadMessageInformation.
  unfold handleUnreadMessageCountUpdated. by destruct (String.eqb _ _).
Qed.

Lemma deliver_unreadChatInformation env u this :
  unreadChatInformation (exec (deliver env u) this)
  = match u with
    | UUnreadChatCountUpdated info =>
        if String.eqb (toString (value info "chat_list_type")) "chatListMain"
        then info else unreadChatInformation this
    | _ => unreadChatInformation this
    end.
Proof.
  destruct u; cbn [deliver]; try handler_frame unreadChatInformation.
  unfold handleUnreadChatCountUpdated. by destruct (String.eqb _ _).
Qed.

(** X19: along a stream of updates each unread snapshot is the payload
    of the last update of its kind that was for the main chat list;
    updates for other lists and updates of any other kind do not count,
    and without a main-list update the snapshot is the one from before
    the stream. *)
Theorem unread_snapshots_over_stream
    (env : Environment) (us : list Update) (this : TDLibWrapper) :
  getUnreadMessageInformation (exec (deliver_all env us) this)
  = default (getUnreadMessageInformation this) (last (main_list_message_counts us))
  ∧ getUnreadChatInformation (exec (deliver_all env us) this)
    = default (getUnreadChatInformation this) (last (main_list_chat_counts us)).
Proof.
  unfold getUnreadMessageInformation, getUnreadChatInformation.
  revert this. induction us as [|u us IH]; intros this; [done|].
  rewrite deliver_all_cons.
  destruct (IH (exec (deliver env u) this)) as [-> ->].
  rewrite deliver_unreadMessageInformation, deliver_unreadChatInformation.
  cbn [main_list_message_counts main_list_chat_counts].
  destruct u as [| | | | | | |info|info| |]; try done.
  - split; [|done]. destruct (String.eqb _ _); [|done]. by rewrite default_last_cons.
  - split; [done|]. destruct (String.eqb _ _); [|done]. by rewrite default_last_cons.
Qed.

(** ** Settings *)

(** X20: the send-by-enter preference reads back as it was last set,
    whatever was stored before, is [false] as long as it was never set,
    and setting it leaves every other setting alone. *)
Theorem sendByEnter_round_trip (b b' : bool) (settings : QVariantMap) (key : string) :
  getSendByEnter (setSendByEnter b settings) = b
  ∧ getSendByEnter (setSendByEnter b (setSendByEnter b' settings)) = b
  ∧ (settings !! "sendByEnter" = None → getSendByEnter settings = false)
  ∧ (key ≠ "sendByEnter" → setSendByEnter b settings !! key = settings !! key).
Proof.
  unfold getSendByEnter, setSendByEnter, settings_value.
  repeat split.
  - by rewrite lookup_insert_eq.
  - by rewrite lookup_insert_eq.
  - by intros ->.
  - intros Hkey. by rewrite lookup_insert_ne.
Qed.

Lemma sendByEnter_round_trip_witness :
  getSendByEnter ∅ = false
  ∧ setSendByEnter true (<["theme" := VString "dark"]> ∅) !! "theme" = Some (VString "dark").
Proof.
  destruct (sendByEnter_round_trip true false ∅ "theme") as (_ & _ & Hunset & _).
  destruct (sendByEnter_round_trip true false (<["theme" := VString "dark"]> ∅) "theme")
    as (_ & _ & _ & Hother).
  split.
  - apply Hunset. reflexivity.
  - rewrite Hother by discriminate. reflexivity.
Defined.

Example toBool_of_strings :
  toBool (VString "FALSE") = false
  ∧ toBool (VString "0") = false
  ∧ toBool (VString "") = false
  ∧ toBool (VString "no") = true.
Proof. by vm_compute. Qed.
